(** * Filter and field-selector expression language of o2ims

    Shallow embedding of
    - [internal/selector/lexer.go]  (package [selector]: the lexical scanner),
    - the filter expression parser  (package [filter]: [Parser.Parse] and the
      procedures of [parseTask]),
    together with the parts of the repository that the parser needs and that
    are not among the sources at hand (the scanner of package [filter], the
    AST types and the serializer exercised by [selector_test.go]).

    Go strings are modelled as the sequence of runes that [ReadRune] decodes
    from them, a rune is its code point, and a Go [error] is its message. *)

From Stdlib Require Import ZArith List String Ascii Bool Lia.
Import ListNotations.

Open Scope string_scope.
Open Scope list_scope.
Open Scope Z_scope.

(** ** Runes and strings *)

(* [length] is the length of a list throughout, not [String.length]. *)
Abbreviation length := Datatypes.length.

Definition rune := Z.
Definition gostring := list rune.

Fixpoint runes (s : string) : gostring :=
  match s with
  | EmptyString => []
  | String a s' => Z.of_N (N_of_ascii a) :: runes s'
  end.

(** Equality of Go strings. *)
Fixpoint eqString (a b : gostring) : bool :=
  match a, b with
  | [], [] => true
  | x :: a', y :: b' => (x =? y) && eqString a' b'
  | _, _ => false
  end.

(** A Go [error] built by [errors.New] or [fmt.Errorf] is its message. *)
Definition error := gostring.

Notation "'NUL'" := 0 (only parsing).
Notation "'APOSTROPHE'" := 39 (only parsing).
Notation "'LPAREN'" := 40 (only parsing).
Notation "'RPAREN'" := 41 (only parsing).
Notation "'COMMA'" := 44 (only parsing).
Notation "'SLASH'" := 47 (only parsing).
Notation "'DIGIT0'" := 48 (only parsing).
Notation "'DIGIT1'" := 49 (only parsing).
Notation "'SEMICOLON'" := 59 (only parsing).
Notation "'AT'" := 64 (only parsing).
Notation "'UNDERSCORE'" := 95 (only parsing).
Notation "'LOWER_A'" := 97 (only parsing).
Notation "'LOWER_B'" := 98 (only parsing).
Notation "'TILDE'" := 126 (only parsing).

(** ** Package [unicode]

    The Go standard library decides [IsSpace], [IsLetter] and [IsDigit] by a
    fixed table for Latin-1 and by range tables above it, and [ToLower] by
    arithmetic for ASCII and by the case table above it.  The Latin-1 part is
    written out; the range tables are the fields of [UnicodeTables]. *)

Class UnicodeTables := {
  White_Space : rune -> bool;
  Letter : rune -> bool;
  Digit : rune -> bool;
  LowerCase : rune -> rune
}.

Definition isLatin1 (r : rune) : bool := (0 <=? r) && (r <=? 255).

Definition between (lo hi r : rune) : bool := (lo <=? r) && (r <=? hi).

Definition latin1Space (r : rune) : bool :=
  between 9 13 r || (r =? 32) || (r =? 133) || (r =? 160).

Definition latin1Letter (r : rune) : bool :=
  between 65 90 r || between 97 122 r || (r =? 170) || (r =? 181) ||
  (r =? 186) || between 192 214 r || between 216 246 r || between 248 255 r.

Definition latin1Digit (r : rune) : bool := between 48 57 r.

Section Unicode.
Context {U : UnicodeTables}.

Definition IsSpace (r : rune) : bool :=
  if isLatin1 r then latin1Space r else White_Space r.

Definition IsLetter (r : rune) : bool :=
  if isLatin1 r then latin1Letter r else Letter r.

Definition IsDigit (r : rune) : bool :=
  if isLatin1 r then latin1Digit r else Digit r.

Definition ToLower (r : rune) : rune :=
  if r <=? 127 then (if between 65 90 r then r + 32 else r)
  else LowerCase r.

(** [strings.ToLower] *)
Definition strings_ToLower (s : gostring) : gostring := map ToLower s.
End Unicode.

(** Tables with nothing above Latin-1; every concrete run below is over
    ASCII text, where the tables are not consulted. *)
Definition Latin1Only : UnicodeTables :=
  {| White_Space := fun _ => false;
     Letter := fun _ => false;
     Digit := fun _ => false;
     LowerCase := fun r => r |}.

(** ** [bytes.Buffer], as far as the scanners use it

    [pending] is the unread part of the buffer; [lastRead] remembers the rune
    of the last operation when that was a successful [ReadRune], which is
    what [UnreadRune] needs. *)

Record Buffer := { pending : gostring; lastRead : option rune }.

Definition NewBufferString (s : gostring) : Buffer :=
  {| pending := s; lastRead := None |}.

(** [None] stands for [io.EOF]; an empty buffer is reset. *)
Definition ReadRune (b : Buffer) : option rune * Buffer :=
  match pending b with
  | [] => (None, {| pending := []; lastRead := None |})
  | r :: rest => (Some r, {| pending := rest; lastRead := Some r |})
  end.

(** The boolean tells whether the call succeeded. *)
Definition UnreadRune (b : Buffer) : bool * Buffer :=
  match lastRead b with
  | None => (false, b)
  | Some r => (true, {| pending := r :: pending b; lastRead := None |})
  end.

Definition Logger := unit.

(** ** Package [selector]: [internal/selector/lexer.go] *)

Module selector.

Inductive exprSymbol :=
| exprSymbolEnd
| exprSymbolIdentifier
| exprSymbolComma
| exprSymbolSlash.

Definition exprSymbol_String (s : exprSymbol) : gostring :=
  match s with
  | exprSymbolEnd => runes "End"
  | exprSymbolIdentifier => runes "Identifier"
  | exprSymbolComma => runes "Comma"
  | exprSymbolSlash => runes "Slash"
  end.

Record exprToken := { Symbol : exprSymbol; Text : gostring }.

Definition exprToken_String (t : option exprToken) : gostring :=
  match t with
  | None => runes "Nil"
  | Some t =>
      match Symbol t with
      | exprSymbolIdentifier =>
          exprSymbol_String (Symbol t) ++ runes ":" ++ Text t
      | _ => exprSymbol_String (Symbol t)
      end
  end.

Record exprLexerBuilder := {
  b_logger : option Logger;
  b_source : gostring
}.

Record exprLexer := { buffer : Buffer }.

Definition newExprLexer : exprLexerBuilder :=
  {| b_logger := None; b_source := [] |}.

Definition SetLogger (value : option Logger) (b : exprLexerBuilder) :=
  {| b_logger := value; b_source := b_source b |}.

Definition SetSource (value : gostring) (b : exprLexerBuilder) :=
  {| b_logger := b_logger b; b_source := value |}.

Definition Build (b : exprLexerBuilder) : exprLexer + error :=
  match b_logger b with
  | None => inr (runes "logger is mandatory")
  | Some _ =>
      if (length (b_source b) =? 0)%nat then inr (runes "source is mandatory")
      else inl {| buffer := NewBufferString (b_source b) |}
  end.

(** What [FetchToken] returns: a token and a nil error, or a nil token and
    an error. *)
Inductive fetched :=
| Token (t : exprToken)
| Fault (e : error).

(** [readRune] returns 0 at the end of the input. *)
Definition readRune (l : exprLexer) : rune * exprLexer :=
  match ReadRune (buffer l) with
  | (None, b) => (NUL, {| buffer := b |})
  | (Some r, b) => (r, {| buffer := b |})
  end.

(** A failed [UnreadRune] is logged and otherwise ignored. *)
Definition unreadRune (l : exprLexer) : exprLexer :=
  {| buffer := snd (UnreadRune (buffer l)) |}.

Inductive State := S0 | S1 | S2.

Definition errUnexpectedCharacter (r : rune) : error :=
  runes "unexpected character '" ++ [r] ++
  runes "' while expecting start of identifier".

Definition errUnknownEscape (r : rune) : error :=
  runes "unknown escape sequence '~" ++ [r] ++
  runes "', valid escape sequences are '~0' for '/', '~' for '/' and '~a' for ','".

Section Lexer.
Context {U : UnicodeTables}.

(** The loop of [FetchToken]; [fuel] bounds the number of iterations and
    [None] means that the bound was reached. *)
Fixpoint fetchLoop (fuel : nat) (l : exprLexer) (state : State)
    (lexeme : gostring) : option (fetched * exprLexer) :=
  match fuel with
  | O => None
  | S fuel =>
      let (r, l) := readRune l in
      match state with
      | S0 =>
          if IsSpace r then fetchLoop fuel l S0 lexeme
          else if IsLetter r || (r =? UNDERSCORE) then
            fetchLoop fuel l S1 (lexeme ++ [r])
          else if r =? COMMA then
            Some (Token {| Symbol := exprSymbolComma; Text := runes "," |}, l)
          else if r =? SLASH then
            Some (Token {| Symbol := exprSymbolSlash; Text := runes "/" |}, l)
          else if r =? TILDE then fetchLoop fuel l S2 lexeme
          else if r =? NUL then
            Some (Token {| Symbol := exprSymbolEnd; Text := [] |}, l)
          else Some (Fault (errUnexpectedCharacter r), l)
      | S1 =>
          if IsLetter r || IsDigit r || (r =? UNDERSCORE) then
            fetchLoop fuel l S1 (lexeme ++ [r])
          else if r =? TILDE then fetchLoop fuel l S2 lexeme
          else
            let l := unreadRune l in
            Some (Token {| Symbol := exprSymbolIdentifier; Text := lexeme |}, l)
      | S2 =>
          if r =? DIGIT0 then fetchLoop fuel l S0 (lexeme ++ [TILDE])
          else if r =? DIGIT1 then fetchLoop fuel l S0 (lexeme ++ [SLASH])
          else if r =? LOWER_A then fetchLoop fuel l S0 (lexeme ++ [COMMA])
          else Some (Fault (errUnknownEscape r), l)
      end
  end.

(** Every iteration that does not return has read a rune of the input, so
    one more iteration than there are runes left is enough (see
    [selector_fetchLoop_returns]). *)
Definition FetchToken (l : exprLexer) : option (fetched * exprLexer) :=
  fetchLoop (S (length (pending (buffer l)))) l S0 [].

(** The lexer after [n] calls of [FetchToken], whatever they returned. *)
Fixpoint afterCalls (n : nat) (l : exprLexer) : option exprLexer :=
  match n with
  | O => Some l
  | S n =>
      match FetchToken l with
      | Some (_, l') => afterCalls n l'
      | None => None
      end
  end.
End Lexer.

(** A lexer over [source], built as the callers do. *)
Definition lexerOver (source : gostring) : exprLexer + error :=
  Build (SetSource source (SetLogger (Some tt) newExprLexer)).

End selector.

(** ** Package [filter]: tokens and syntax trees *)

Module filter.

(** Modelled from the spec: the symbol and token types of package [filter] are
    not among the sources.  The parser names eight symbols, which are the
    terminal symbols of section 4.1; the token record and the [String] methods
    follow their counterparts of package [selector]. *)
Inductive exprSymbol :=
| exprSymbolEnd
| exprSymbolIdentifier
| exprSymbolLeftParenthesis
| exprSymbolRightParenthesis
| exprSymbolComma
| exprSymbolSemicolon
| exprSymbolSlash
| exprSymbolString.

Definition exprSymbol_eqb (a b : exprSymbol) : bool :=
  match a, b with
  | exprSymbolEnd, exprSymbolEnd
  | exprSymbolIdentifier, exprSymbolIdentifier
  | exprSymbolLeftParenthesis, exprSymbolLeftParenthesis
  | exprSymbolRightParenthesis, exprSymbolRightParenthesis
  | exprSymbolComma, exprSymbolComma
  | exprSymbolSemicolon, exprSymbolSemicolon
  | exprSymbolSlash, exprSymbolSlash
  | exprSymbolString, exprSymbolString => true
  | _, _ => false
  end.

Definition exprSymbol_String (s : exprSymbol) : gostring :=
  match s with
  | exprSymbolEnd => runes "End"
  | exprSymbolIdentifier => runes "Identifier"
  | exprSymbolLeftParenthesis => runes "LeftParenthesis"
  | exprSymbolRightParenthesis => runes "RightParenthesis"
  | exprSymbolComma => runes "Comma"
  | exprSymbolSemicolon => runes "Semicolon"
  | exprSymbolSlash => runes "Slash"
  | exprSymbolString => runes "String"
  end.

(** Modelled from the spec: the token of package [filter], a symbol and its
    text (section 3), as [selector.exprToken]. *)
Record exprToken := { Symbol : exprSymbol; Text : gostring }.

(** Modelled from the spec: the [String] method of the tokens of package
    [filter], as that of [selector.exprToken] for a token that is not nil. *)
Definition exprToken_String (t : exprToken) : gostring :=
  match Symbol t with
  | exprSymbolIdentifier => exprSymbol_String (Symbol t) ++ runes ":" ++ Text t
  | _ => exprSymbol_String (Symbol t)
  end.

Inductive fetched :=
| Token (t : exprToken)
| Fault (e : error).

(** Modelled from the spec: the two modes of the scanner (section 4.2), under
    the names that [parseTerm] gives them. *)
Inductive exprMode := exprDefaultMode | exprValuesMode.

(** Modelled from the spec: the AST types of section 3, which the parser
    constructs ([Operator], [Term], [Expr]). The values of a term are the
    texts of string tokens. *)
Inductive Operator := Cont | Eq | Gt | Gte | In | Lt | Lte | Ncont | Neq | Nin.

(** Modelled from the spec: a term is an operator, a path and values
    (section 3); the fields are those that [parseTerm] sets. *)
Record Term := {
  Term_Operator : Operator;
  Term_Path : list gostring;
  Term_Values : list gostring
}.

(** Modelled from the spec: an expression is the sequence of its terms
    (section 3); [parseExpr] sets the field. *)
Record Expr := { Terms : list Term }.

(** *** The scanner as the parser sees it

    The parser of package [filter] drives an [exprLexer] of its own package,
    which is not among the sources: it builds one over the text, fetches tokens
    from it and switches its mode.  The parser is written over any scanner with
    these three operations; [FetchToken] gives [None] when the scanner does not
    return. *)
Class Scanner (Lexer : Type) := {
  newLexerOver : gostring -> Lexer + error;
  FetchToken : Lexer -> option (fetched * Lexer);
  SetMode : exprMode -> Lexer -> Lexer
}.

(** *** The parser *)

Section Parser.
Context {Lexer : Type} {scanner : Scanner Lexer} {U : UnicodeTables}.

Record parseTask := { lexer : Lexer; token : option exprToken }.

(** A parsing procedure returns, with the task as it left it, or panics with
    an error. [None] means that the iteration budget was used up or that the
    scanner did not return. *)
Inductive outcome (A : Type) :=
| Return (a : A) (t : parseTask)
| Panic (e : error).
Arguments Return {A} a t.
Arguments Panic {A} e.

Definition M (A : Type) := parseTask -> option (outcome A).

Definition ret {A} (a : A) : M A := fun t => Some (Return a t).

Definition panic {A} (e : error) : M A := fun _ => Some (Panic e).

Definition bind {A B} (m : M A) (k : A -> M B) : M B :=
  fun t =>
    match m t with
    | None => None
    | Some (Panic e) => Some (Panic e)
    | Some (Return a t') => k a t'
    end.

Notation "x <- m ;; k" := (bind m (fun x => k))
  (at level 61, m at next level, right associativity).
Notation "m ;;; k" := (bind m (fun _ => k))
  (at level 61, right associativity).

Definition errNilPointer : error :=
  runes "runtime error: invalid memory address or nil pointer dereference".

(** Dereference of [t.token]. The parser dereferences it after [ensureToken]
    only, which has set it (see [ensureToken_sets_token]), so the panic of a
    nil dereference does not occur. *)
Definition theToken : M exprToken :=
  fun t =>
    match token t with
    | Some tok => Some (Return tok t)
    | None => Some (Panic errNilPointer)
    end.

Definition fetchToken : M unit :=
  fun t =>
    match FetchToken (lexer t) with
    | None => None
    | Some (Fault err, _) => Some (Panic err)
    | Some (Token tok, l) => Some (Return tt {| lexer := l; token := Some tok |})
    end.

Definition ensureToken : M unit :=
  fun t =>
    match token t with
    | None => fetchToken t
    | Some _ => Some (Return tt t)
    end.

Definition currentToken : M exprToken :=
  ensureToken ;;; theToken.

Definition checkToken (symbol : exprSymbol) : M bool :=
  ensureToken ;;;
  tok <- theToken ;;
  ret (exprSymbol_eqb (Symbol tok) symbol).

Definition expectedName (symbol : exprSymbol) : gostring :=
  match symbol with
  | exprSymbolEnd => runes "end of input"
  | exprSymbolLeftParenthesis => runes "left parenthesis"
  | exprSymbolRightParenthesis => runes "right parenthesis"
  | exprSymbolIdentifier => runes "identifier"
  | exprSymbolComma => runes "comma"
  | exprSymbolSlash => runes "slash"
  | exprSymbolSemicolon => runes "semicolon"
  | exprSymbolString => runes "string"
  end.

Definition errUnexpectedToken (text expected : gostring) : error :=
  runes "unexpected token '" ++ text ++ runes "' while expecting " ++ expected.

Definition consumeToken (symbol : exprSymbol) : M unit :=
  ensureToken ;;;
  tok <- theToken ;;
  if negb (exprSymbol_eqb (Symbol tok) symbol) then
    panic (errUnexpectedToken (Text tok) (expectedName symbol))
  else
    fun t => Some (Return tt {| lexer := lexer t; token := None |}).

Definition parseIdentifier : M gostring :=
  tok <- currentToken ;;
  consumeToken exprSymbolIdentifier ;;;
  ret (Text tok).

Definition parseValue : M gostring :=
  tok <- currentToken ;;
  consumeToken exprSymbolString ;;;
  ret (Text tok).

(** The [switch] of [parseOperator] on the lowered name; [None] is its
    [default] case. *)
Definition operatorNamed (lowered : gostring) : option Operator :=
  if eqString lowered (runes "cont") then Some Cont
  else if eqString lowered (runes "eq") then Some Eq
  else if eqString lowered (runes "gt") then Some Gt
  else if eqString lowered (runes "gte") then Some Gte
  else if eqString lowered (runes "in") then Some In
  else if eqString lowered (runes "lt") then Some Lt
  else if eqString lowered (runes "lte") then Some Gt
  else if eqString lowered (runes "ncont") then Some Ncont
  else if eqString lowered (runes "neq") then Some Neq
  else if eqString lowered (runes "nin") then Some Nin
  else None.

Definition errUnknownOperator (name : gostring) : error :=
  runes "unknown operator '" ++ name ++ runes "'".

Definition parseOperator : M Operator :=
  name <- parseIdentifier ;;
  match operatorNamed (strings_ToLower name) with
  | Some op => ret op
  | None => panic (errUnknownOperator name)
  end.

Fixpoint parsePathFrom (fuel : nat) (segments : list gostring)
    : M (list gostring) :=
  match fuel with
  | O => fun _ => None
  | S fuel =>
      segment <- parseIdentifier ;;
      let segments := segments ++ [segment] in
      slash <- checkToken exprSymbolSlash ;;
      if slash then fetchToken ;;; parsePathFrom fuel segments
      else
        comma <- checkToken exprSymbolComma ;;
        if comma then ret segments
        else
          tok <- currentToken ;;
          panic (errUnexpectedToken (Text tok) (runes "slash or comma"))
  end.

Definition parsePath (fuel : nat) : M (list gostring) :=
  parsePathFrom fuel [].

Fixpoint parseValuesFrom (fuel : nat) (values : list gostring)
    : M (list gostring) :=
  match fuel with
  | O => fun _ => None
  | S fuel =>
      value <- parseValue ;;
      let values := values ++ [value] in
      comma <- checkToken exprSymbolComma ;;
      if comma then fetchToken ;;; parseValuesFrom fuel values
      else
        close <- checkToken exprSymbolRightParenthesis ;;
        if close then ret values
        else
          tok <- currentToken ;;
          panic (errUnexpectedToken (Text tok)
                   (runes "comma or right parenthesis"))
  end.

Definition parseValues (fuel : nat) : M (list gostring) :=
  parseValuesFrom fuel [].

Definition parseOptionalValues (fuel : nat) : M (list gostring) :=
  close <- checkToken exprSymbolRightParenthesis ;;
  if close then ret []
  else
    str <- checkToken exprSymbolString ;;
    if str then parseValues fuel
    else
      tok <- currentToken ;;
      panic (errUnexpectedToken (Text tok)
               (runes "value or right parenthesis")).

Definition setLexerMode (mode : exprMode) : M unit :=
  fun t => Some (Return tt {| lexer := SetMode mode (lexer t); token := token t |}).

Definition parseTerm (fuel : nat) : M Term :=
  consumeToken exprSymbolLeftParenthesis ;;;
  operator <- parseOperator ;;
  consumeToken exprSymbolComma ;;;
  path <- parsePath fuel ;;
  consumeToken exprSymbolComma ;;;
  setLexerMode exprValuesMode ;;;
  values <- parseOptionalValues fuel ;;
  setLexerMode exprDefaultMode ;;;
  consumeToken exprSymbolRightParenthesis ;;;
  ret {| Term_Operator := operator; Term_Path := path; Term_Values := values |}.

(** The loop of [parseExpr]; [budget] bounds the loops of each term. *)
Fixpoint parseExprFrom (fuel budget : nat) (terms : list Term) : M Expr :=
  match fuel with
  | O => fun _ => None
  | S fuel =>
      term <- parseTerm budget ;;
      let terms := terms ++ [term] in
      semicolon <- checkToken exprSymbolSemicolon ;;
      if semicolon then fetchToken ;;; parseExprFrom fuel budget terms
      else
        last <- checkToken exprSymbolEnd ;;
        if last then ret {| Terms := terms |}
        else
          tok <- currentToken ;;
          panic (runes "unexpected token '" ++ exprToken_String tok ++
                 runes "' while expecting semicolon or end of input")
  end.

Definition parseExpr (fuel : nat) : M Expr :=
  parseExprFrom fuel fuel [].

(** [Parser.Parse]: the pair of results of the Go function. The deferred
    function recovers a panic and stores its error in [err]; [expr] is then
    still nil. [fuel] bounds every loop of the parse. *)
Definition Parse (fuel : nat) (text : gostring)
    : option (option Expr * option error) :=
  match newLexerOver text with
  | inr err => Some (None, Some err)
  | inl lexer =>
      let task := {| lexer := lexer; token := None |} in
      match parseExpr fuel task with
      | None => None
      | Some (Panic fault) => Some (None, Some fault)
      | Some (Return expr _) => Some (Some expr, None)
      end
  end.

End Parser.

Arguments Return {Lexer A} a t.
Arguments Panic {Lexer A} e.
Arguments parseTask Lexer : clear implicits.

End filter.

(** ** The scanner of package [filter] *)

Module filter_lexer.
Import filter.

(** Modelled from the spec: the scanner of package [filter] ([exprLexer] with
    [SetMode], its builder and [FetchToken]) is not among the sources. Its
    default mode is the identifier automaton of section 4.2: the states [S0],
    [S1] and [S2], the punctuation [,] [;] [/] [(] [)] and the escape table
    [~0], [~1], [~a], [~b]. Section 4.5 and scenario S5 add that [@] need not
    be escaped on input and that [@key] is accepted verbatim, for which the
    automaton of section 4.2 has no case: here [@] begins an identifier in
    state [S0], as a letter or an underscore does. Its values mode is the
    string automaton of section 4.2. Both modes read through [readRune] as
    [selector.FetchToken] does, so that rune 0 is the end of the input. The
    builder follows [selector.Build]. *)
Record exprLexer := { mode : exprMode; buffer : Buffer }.

Record exprLexerBuilder := {
  b_logger : option Logger;
  b_source : gostring
}.

Definition newExprLexer : exprLexerBuilder :=
  {| b_logger := None; b_source := [] |}.

Definition SetLogger (value : option Logger) (b : exprLexerBuilder) :=
  {| b_logger := value; b_source := b_source b |}.

Definition SetSource (value : gostring) (b : exprLexerBuilder) :=
  {| b_logger := b_logger b; b_source := value |}.

(** Modelled from the spec: the builder of the scanner of package [filter],
    as [selector.Build]; a new lexer is in default mode. *)
Definition Build (b : exprLexerBuilder) : exprLexer + error :=
  match b_logger b with
  | None => inr (runes "logger is mandatory")
  | Some _ =>
      if (length (b_source b) =? 0)%nat then inr (runes "source is mandatory")
      else inl {| mode := exprDefaultMode;
                  buffer := NewBufferString (b_source b) |}
  end.

(** Modelled from the spec: [SetMode] of section 9 changes the mode and
    nothing else. *)
Definition SetMode (m : exprMode) (l : exprLexer) : exprLexer :=
  {| mode := m; buffer := buffer l |}.

Definition readRune (l : exprLexer) : rune * exprLexer :=
  match ReadRune (buffer l) with
  | (None, b) => (NUL, {| mode := mode l; buffer := b |})
  | (Some r, b) => (r, {| mode := mode l; buffer := b |})
  end.

Definition unreadRune (l : exprLexer) : exprLexer :=
  {| mode := mode l; buffer := snd (UnreadRune (buffer l)) |}.

Inductive State := S0 | S1 | S2.

Definition errUnexpectedValueCharacter (r : rune) : error :=
  runes "unexpected character '" ++ [r] ++
  runes "' while expecting start of string".

Definition errUnterminatedString : error :=
  runes "unterminated string".

(** Modelled from the spec: the error "unknown escape sequence" of section
    4.2, with the offending escape (scenario S10). *)
Definition errUnknownEscape (r : rune) : error :=
  runes "unknown escape sequence '~" ++ [r] ++ runes "'".

Definition punctuation (symbol : exprSymbol) (r : rune) : fetched :=
  Token {| Symbol := symbol; Text := [r] |}.

Section Lexer.
Context {U : UnicodeTables}.

(** Modelled from the spec: the default mode of section 4.2. [S0]: white
    space is skipped, a letter or an underscore, and [@] (section 4.5),
    begins an identifier, a punctuation rune is a token, a tilde begins an
    escape, the end of the input is the end token, any other rune is an
    error. [S1]: a letter, a digit or an underscore is taken, a tilde begins
    an escape, any other rune is put back and the identifier returned. [S2]:
    the rune after the tilde is decoded by the table [~0], [~1], [~a], [~b]
    and the automaton returns to [S0], the lexeme kept; any other rune is an
    error. [fuel] bounds the number of iterations. *)
Fixpoint fetchInDefaultMode (fuel : nat) (l : exprLexer) (state : State)
    (lexeme : gostring) : option (fetched * exprLexer) :=
  match fuel with
  | O => None
  | S fuel =>
      let (r, l) := readRune l in
      match state with
      | S0 =>
          if IsSpace r then fetchInDefaultMode fuel l S0 lexeme
          else if IsLetter r || (r =? UNDERSCORE) || (r =? AT) then
            fetchInDefaultMode fuel l S1 (lexeme ++ [r])
          else if r =? COMMA then Some (punctuation exprSymbolComma r, l)
          else if r =? SEMICOLON then Some (punctuation exprSymbolSemicolon r, l)
          else if r =? SLASH then Some (punctuation exprSymbolSlash r, l)
          else if r =? LPAREN then
            Some (punctuation exprSymbolLeftParenthesis r, l)
          else if r =? RPAREN then
            Some (punctuation exprSymbolRightParenthesis r, l)
          else if r =? TILDE then fetchInDefaultMode fuel l S2 lexeme
          else if r =? NUL then
            Some (Token {| Symbol := exprSymbolEnd; Text := [] |}, l)
          else Some (Fault (selector.errUnexpectedCharacter r), l)
      | S1 =>
          if IsLetter r || IsDigit r || (r =? UNDERSCORE) then
            fetchInDefaultMode fuel l S1 (lexeme ++ [r])
          else if r =? TILDE then fetchInDefaultMode fuel l S2 lexeme
          else
            let l := unreadRune l in
            Some (Token {| Symbol := exprSymbolIdentifier; Text := lexeme |}, l)
      | S2 =>
          if r =? DIGIT0 then fetchInDefaultMode fuel l S0 (lexeme ++ [TILDE])
          else if r =? DIGIT1 then
            fetchInDefaultMode fuel l S0 (lexeme ++ [SLASH])
          else if r =? LOWER_A then
            fetchInDefaultMode fuel l S0 (lexeme ++ [COMMA])
          else if r =? LOWER_B then
            fetchInDefaultMode fuel l S0 (lexeme ++ [AT])
          else Some (Fault (errUnknownEscape r), l)
      end
  end.

(** Modelled from the spec: the values mode of section 4.2. [S0]: before a
    token, where spaces are skipped, a quote begins a literal and a comma or
    a right parenthesis is a token; [S1]: inside a literal; [S2]: after a
    quote inside a literal, which is the first of a doubled quote or the end
    of the literal. The end of the input inside a literal is an error. *)
Fixpoint fetchInValuesMode (fuel : nat) (l : exprLexer) (state : State)
    (lexeme : gostring) : option (fetched * exprLexer) :=
  match fuel with
  | O => None
  | S fuel =>
      let (r, l) := readRune l in
      match state with
      | S0 =>
          if IsSpace r then fetchInValuesMode fuel l S0 lexeme
          else if r =? APOSTROPHE then fetchInValuesMode fuel l S1 lexeme
          else if r =? COMMA then Some (punctuation exprSymbolComma r, l)
          else if r =? RPAREN then
            Some (punctuation exprSymbolRightParenthesis r, l)
          else if r =? NUL then
            Some (Token {| Symbol := exprSymbolEnd; Text := [] |}, l)
          else Some (Fault (errUnexpectedValueCharacter r), l)
      | S1 =>
          if r =? APOSTROPHE then fetchInValuesMode fuel l S2 lexeme
          else if r =? NUL then Some (Fault errUnterminatedString, l)
          else fetchInValuesMode fuel l S1 (lexeme ++ [r])
      | S2 =>
          if r =? APOSTROPHE then
            fetchInValuesMode fuel l S1 (lexeme ++ [APOSTROPHE])
          else
            let l := unreadRune l in
            Some (Token {| Symbol := exprSymbolString; Text := lexeme |}, l)
      end
  end.

(** Modelled from the spec: [FetchToken] scans in the mode of the lexer. An
    iteration that does not return has read a rune of the input, so one more
    iteration than there are runes left is enough (see
    [FetchToken_progress]). *)
Definition FetchToken (l : exprLexer) : option (fetched * exprLexer) :=
  let fuel := S (length (pending (buffer l))) in
  match mode l with
  | exprDefaultMode => fetchInDefaultMode fuel l S0 []
  | exprValuesMode => fetchInValuesMode fuel l S0 []
  end.

End Lexer.

(** [newExprLexer().SetLogger(p.logger).SetSource(text).Build()], the logger
    of a parser being set. *)
Definition lexerOver (text : gostring) : exprLexer + error :=
  Build (SetSource text (SetLogger (Some tt) newExprLexer)).

#[global] Instance scanner {U : UnicodeTables} : Scanner exprLexer :=
  {| newLexerOver := lexerOver;
     filter.FetchToken := FetchToken;
     filter.SetMode := SetMode |}.

End filter_lexer.

(** ** Serialization *)

Module search.
Import filter.

(** [strings.Join] *)
Fixpoint Join (elems : list gostring) (sep : gostring) : gostring :=
  match elems with
  | [] => []
  | [e] => e
  | e :: rest => e ++ sep ++ Join rest sep
  end.

(** Modelled from the spec: the serializer ([Selector.String] and the methods
    it calls) is not among the sources; only its test table in
    [internal/search/selector_test.go] is. The definitions follow section 4.5:
    the operator in lower case, the escaped segments joined by a slash, every
    value in single quotes with inner quotes doubled, in the canonical form of
    the grammar of section 6, and the terms joined by a semicolon. *)
Definition Operator_String (o : Operator) : gostring :=
  match o with
  | Cont => runes "cont"
  | Eq => runes "eq"
  | Gt => runes "gt"
  | Gte => runes "gte"
  | In => runes "in"
  | Lt => runes "lt"
  | Lte => runes "lte"
  | Ncont => runes "ncont"
  | Neq => runes "neq"
  | Nin => runes "nin"
  end.

(** Modelled from the spec: the escape of one rune of a segment
    (section 4.5). *)
Definition escapeRune (r : rune) : gostring :=
  if r =? TILDE then runes "~0"
  else if r =? SLASH then runes "~1"
  else if r =? AT then runes "~b"
  else if r =? COMMA then runes "~a"
  else [r].

(** Modelled from the spec: the segment [@key] is written as it is, any
    other segment rune by rune (section 4.5). *)
Definition escapePathSegment (segment : gostring) : gostring :=
  if eqString segment (runes "@key") then segment
  else flat_map escapeRune segment.

Definition quoteRune (r : rune) : gostring :=
  if r =? APOSTROPHE then runes "''" else [r].

(** Modelled from the spec: a value in single quotes, its quotes doubled
    (section 4.5). *)
Definition quoteValue (value : gostring) : gostring :=
  runes "'" ++ flat_map quoteRune value ++ runes "'".

(** Modelled from the spec: term emission of section 4.5, in the form
    [term ::= '(' op ',' path ',' values? ')'] of section 6. *)
Definition Term_String (t : Term) : gostring :=
  runes "(" ++ Operator_String (Term_Operator t) ++ runes "," ++
  Join (map escapePathSegment (Term_Path t)) (runes "/") ++ runes "," ++
  Join (map quoteValue (Term_Values t)) (runes ",") ++ runes ")".

(** Modelled from the spec: the terms joined by a semicolon (section 4.5);
    [Selector.String] of the test. *)
Definition Selector_String (e : Expr) : gostring :=
  Join (map Term_String (Terms e)) (runes ";").

End search.

(** ** Vocabulary of the properties *)

Section ParserVocabulary.
Context {Lexer : Type}.

(** The token held by a task, if any, satisfies [good]. *)
Definition heldTokenIs (good : filter.exprToken -> Prop)
    (t : filter.parseTask Lexer) : Prop :=
  forall tok, filter.token t = Some tok -> good tok.

(** The texts of the tokens of a syntax tree: the operator is one that the
    switch of [parseOperator] selects, every segment is the text of an
    identifier token and every value the text of a string token satisfying
    [good]; there is a term, and every term has a segment. *)
Definition termMadeOf (good : filter.exprToken -> Prop) (t : filter.Term)
    : Prop :=
  (exists name, filter.operatorNamed name = Some (filter.Term_Operator t)) /\
  filter.Term_Path t <> [] /\
  Forall (fun s => good {| filter.Symbol := filter.exprSymbolIdentifier;
                           filter.Text := s |}) (filter.Term_Path t) /\
  Forall (fun v => good {| filter.Symbol := filter.exprSymbolString;
                           filter.Text := v |}) (filter.Term_Values t).

Definition exprMadeOf (good : filter.exprToken -> Prop) (e : filter.Expr)
    : Prop :=
  filter.Terms e <> [] /\ Forall (termMadeOf good) (filter.Terms e).

End ParserVocabulary.

(** The measure of termination of a parse over the scanner of package
    [filter]: the runes not yet read, plus one for a held token that is not
    the end token. *)
Definition remaining (l : filter_lexer.exprLexer) : nat :=
  length (pending (filter_lexer.buffer l)).

Definition potential (t : filter.parseTask filter_lexer.exprLexer) : nat :=
  (remaining (filter.lexer t) +
   match filter.token t with
   | Some tok =>
       if filter.exprSymbol_eqb (filter.Symbol tok) filter.exprSymbolEnd
       then 0 else 1
   | None => 0
   end)%nat.

(** [m] returns or panics from [t], and what it returns satisfies [Q]. *)
Definition runsTo {Lexer A : Type} (m : filter.M A)
    (t : filter.parseTask Lexer)
    (Q : A -> filter.parseTask Lexer -> Prop) : Prop :=
  exists out,
    m t = Some out /\
    forall a t', out = filter.Return a t' -> Q a t'.

(** Whatever [m] returns or panics with, [m'] does too. *)
Definition extends {Lexer A : Type} (m m' : filter.M (Lexer := Lexer) A)
    : Prop :=
  forall t out, m t = Some out -> m' t = Some out.

(** A lexer of package [filter] in a given mode, with given input left. *)
Definition lexerAt (m : filter.exprMode) (p : gostring) (last : option rune)
    : filter_lexer.exprLexer :=
  {| filter_lexer.mode := m;
     filter_lexer.buffer := {| pending := p; lastRead := last |} |}.

(** The runes that an escape sequence of [selector.FetchToken] stands
    for. *)
Definition isEscaped (r : rune) : bool :=
  (r =? TILDE) || (r =? SLASH) || (r =? COMMA).

(** The labels of the switch of [parseOperator]. *)
Definition operatorNames : list gostring :=
  map runes ["cont"; "eq"; "gt"; "gte"; "in"; "lt"; "lte"; "ncont"; "neq"; "nin"].

(** The runes of the escape table of the scanner of package [filter]. *)
Definition hasEscape (r : rune) : bool :=
  isEscaped r || (r =? AT).

(** In canonical text, what follows the first element of a path, of a list of
    values and of a list of terms. *)
Definition pathTail (path : list gostring) : gostring :=
  flat_map (fun s => SLASH :: search.escapePathSegment s) path.

Definition valuesTail (values : list gostring) : gostring :=
  flat_map (fun v => COMMA :: search.quoteValue v) values.


Section ScannedTexts.
Context {U : UnicodeTables}.

(** The runes that [selector.FetchToken] takes into an identifier in state
    [S0], and in state [S1]. *)
Definition startsIdentifier (r : rune) : bool :=
  negb (IsSpace r) && (IsLetter r || (r =? UNDERSCORE)).

Definition continuesIdentifier (r : rune) : bool :=
  IsLetter r || IsDigit r || (r =? UNDERSCORE).

(** The texts of the identifier tokens of package [selector], read from the
    rune after which the automaton is in state [S1] ([inside]) or in state
    [S0]: a decoded escape leads to [S0], any other rune of the text to
    [S1], and the text ends in [S1]. *)
Fixpoint segmentFrom (inside : bool) (s : gostring) : bool :=
  match s with
  | [] => inside
  | r :: s' =>
      if inside then
        if continuesIdentifier r then segmentFrom true s'
        else if isEscaped r then segmentFrom false s'
        else false
      else
        if isEscaped r then segmentFrom false s'
        else if startsIdentifier r then segmentFrom true s'
        else false
  end.

(** The input after an identifier makes the automaton leave state [S1]. *)
Definition stopsIdentifier (rest : gostring) : bool :=
  match rest with
  | [] => true
  | r :: _ => negb (continuesIdentifier r) && negb (r =? TILDE)
  end.

(** The input after a string literal is not another quote. *)
Definition closesString (rest : gostring) : bool :=
  match rest with
  | [] => true
  | r :: _ => negb (r =? APOSTROPHE)
  end.



(** The texts that are read back from their escaped form, in which every
    rune of the escape table is written as its escape sequence. *)
Fixpoint writtenFrom (inside : bool) (s : gostring) : bool :=
  match s with
  | [] => inside
  | r :: s' =>
      if inside then
        if continuesIdentifier r then writtenFrom true s'
        else if hasEscape r then writtenFrom false s'
        else false
      else
        if hasEscape r then writtenFrom false s'
        else if startsIdentifier r then writtenFrom true s'
        else false
  end.






End ScannedTexts.

(** The canonical text of a term after its left parenthesis, the operator
    being written [name]. *)
Definition termText (name : gostring) (path values : list gostring)
    : gostring :=
  name ++ COMMA ::
  search.Join (map search.escapePathSegment path) (runes "/") ++ COMMA ::
  search.Join (map search.quoteValue values) (runes ",") ++ [RPAREN].



(** [Parse] over the scanner of package [filter], with the tables that have
    nothing above Latin-1. *)
Definition ParseLatin1 (fuel : nat) (text : gostring)
    : option (option filter.Expr * option error) :=
  filter.Parse (U := Latin1Only)
    (scanner := filter_lexer.scanner (U := Latin1Only)) fuel text.

(** *** Vocabulary for the scanner of package [selector] *)

(** A lexer of package [selector] with given input left, and the input that
    a lexer has left. *)
Definition selectorLexerAt (p : gostring) (last : option rune)
    : selector.exprLexer :=
  {| selector.buffer := {| pending := p; lastRead := last |} |}.

Definition unread (l : selector.exprLexer) : gostring :=
  pending (selector.buffer l).

(** The escape sequence that state [S2] of [selector.FetchToken] decodes to a
    rune, and the rune itself when there is none. *)
Definition tildeEscape (r : rune) : gostring :=
  if r =? TILDE then [TILDE; DIGIT0]
  else if r =? SLASH then [TILDE; DIGIT1]
  else if r =? COMMA then [TILDE; LOWER_A]
  else [r].

(** The end token or an error: what ends the tokens of a source. *)
Definition endsTokens (res : selector.fetched) : Prop :=
  match res with
  | selector.Token tok => selector.Symbol tok = selector.exprSymbolEnd
  | selector.Fault _ => True
  end.

Section SelectorVocabulary.
Context {U : UnicodeTables}.

(** The runes for which state [S0] of [selector.FetchToken] has no case but
    the default one. *)
Definition rejectedInS0 (r : rune) : bool :=
  negb (IsSpace r) && negb (IsLetter r || (r =? UNDERSCORE)) &&
  negb (r =? COMMA) && negb (r =? SLASH) && negb (r =? TILDE) &&
  negb (r =? NUL).

(** [lexemeBegins] for the states of package [selector]. *)
Definition selectorLexemeBegins (state : selector.State) (lexeme : gostring)
    : Prop :=
  match state with
  | selector.S0 =>
      forall suffix, segmentFrom false suffix = true ->
        segmentFrom false (lexeme ++ suffix) = true
  | selector.S1 =>
      forall suffix, segmentFrom true suffix = true ->
        segmentFrom false (lexeme ++ suffix) = true
  | selector.S2 =>
      forall suffix e, isEscaped e = true ->
        segmentFrom false suffix = true ->
        segmentFrom false (lexeme ++ e :: suffix) = true
  end.

(** What [n] calls of [selector.FetchToken] return, in order, and the lexer
    they leave. *)
Fixpoint fetchTokens (n : nat) (l : selector.exprLexer)
    : option (list selector.fetched * selector.exprLexer) :=
  match n with
  | O => Some ([], l)
  | S n =>
      match selector.FetchToken l with
      | Some (res, l') =>
          match fetchTokens n l' with
          | Some (more, l'') => Some (res :: more, l'')
          | None => None
          end
      | None => None
      end
  end.

End SelectorVocabulary.

(** A path written for package [selector]: the segments, with their escape
    sequences, and a slash between two of them; and the tokens of a path. *)
Fixpoint pathText (segments : list gostring) : gostring :=
  match segments with
  | [] => []
  | s :: more =>
      match more with
      | [] => flat_map tildeEscape s
      | _ :: _ => flat_map tildeEscape s ++ SLASH :: pathText more
      end
  end.

Fixpoint pathTokens (segments : list gostring) : list selector.fetched :=
  match segments with
  | [] => []
  | s :: more =>
      selector.Token {| selector.Symbol := selector.exprSymbolIdentifier;
                        selector.Text := s |} ::
      match more with
      | [] => []
      | _ :: _ =>
          selector.Token {| selector.Symbol := selector.exprSymbolSlash;
                            selector.Text := runes "/" |} ::
          pathTokens more
      end
  end.

(** *** Vocabulary for the errors and the tokens of a parse *)

Section ParseOrigins.
Context {Lexer : Type} {scanner : filter.Scanner Lexer} {U : UnicodeTables}.

(** A token, and an error, that [FetchToken] returns on some lexer. *)
Definition fetchedToken (tok : filter.exprToken) : Prop :=
  exists l l' : Lexer, filter.FetchToken l = Some (filter.Token tok, l').

Definition scannerFault (e : error) : Prop :=
  exists l l' : Lexer, filter.FetchToken l = Some (filter.Fault e, l').

(** The errors that the procedures of the parser panic with. *)
Definition parserMessage (e : error) : Prop :=
  (exists text symbol,
     e = filter.errUnexpectedToken text (filter.expectedName symbol)) \/
  (exists text,
     e = filter.errUnexpectedToken text (runes "slash or comma")) \/
  (exists text,
     e = filter.errUnexpectedToken text (runes "value or right parenthesis")) \/
  (exists text,
     e = filter.errUnexpectedToken text (runes "comma or right parenthesis")) \/
  (exists name,
     e = filter.errUnknownOperator name /\
     filter.operatorNamed (strings_ToLower name) = None) \/
  (exists tok,
     e = runes "unexpected token '" ++ filter.exprToken_String tok ++
         runes "' while expecting semicolon or end of input").

End ParseOrigins.

(** * Properties *)

Ltac split_if :=
  match goal with
  | |- context [if ?c then _ else _] => destruct c eqn:?
  end.

Ltac inv H := inversion H; subst; clear H.

(** ** Runes of the Latin-1 table *)

Section UnicodeFacts.
Context {U : UnicodeTables}.

Lemma IsSpace_NUL : IsSpace NUL = false.
Proof. reflexivity. Qed.

Lemma IsLetter_NUL : IsLetter NUL = false.
Proof. reflexivity. Qed.

Lemma IsDigit_NUL : IsDigit NUL = false.
Proof. reflexivity. Qed.

End UnicodeFacts.

(** ** The scanner of package [selector] *)

Section SelectorLexer.
Context {U : UnicodeTables}.
Import selector.

Lemma selector_fetchLoop_returns :
  forall fuel l state lexeme,
    (length (pending (buffer l)) < fuel)%nat ->
    exists res, fetchLoop fuel l state lexeme = Some res.
Proof.
  induction fuel as [|fuel IH]; intros [[p lr]] state lexeme Hlen; simpl in *.
  - lia.
  - unfold readRune, ReadRune; simpl.
    destruct p as [|r rest]; simpl in *.
    + destruct state; rewrite ?IsSpace_NUL, ?IsLetter_NUL, ?IsDigit_NUL;
        simpl; eauto.
    + destruct state; repeat split_if; eauto; apply IH; simpl; lia.
Qed.

Lemma selector_FetchToken_returns :
  forall l, exists res, FetchToken l = Some res.
Proof.
  intros l. unfold FetchToken. apply selector_fetchLoop_returns. lia.
Qed.

(** Over an input without rune 0 the pending input stays without it, and the
    end token is returned only when the input is exhausted. *)
Lemma selector_fetchLoop_pending :
  forall fuel l state lexeme res l',
    Forall (fun r => r <> NUL) (pending (buffer l)) ->
    fetchLoop fuel l state lexeme = Some (res, l') ->
    Forall (fun r => r <> NUL) (pending (buffer l')) /\
    (forall tok, res = Token tok -> Symbol tok = exprSymbolEnd ->
       l' = {| buffer := {| pending := []; lastRead := None |} |}).
Proof.
  induction fuel as [|fuel IH]; intros [[p lr]] state lexeme res l' Hp Hf;
    simpl in *.
  - discriminate.
  - unfold readRune, ReadRune in Hf; simpl in Hf.
    destruct p as [|r rest]; simpl in *.
    + destruct state; rewrite ?IsSpace_NUL, ?IsLetter_NUL, ?IsDigit_NUL in Hf;
        simpl in Hf; inv Hf; split; auto; intros tok Ht Hs; inv Ht;
        try discriminate; reflexivity.
    + inv Hp.
      destruct state;
        repeat match type of Hf with
               | context [if ?c then _ else _] => destruct c eqn:?
               end;
        try (eapply IH; [|eassumption]; simpl; assumption);
        inv Hf; simpl; (split; [auto|]); intros tok Ht Hs; inv Ht;
        try discriminate.
      match goal with
      | H : (_ =? NUL) = true |- _ => apply Z.eqb_eq in H; contradiction
      end.
Qed.

Lemma selector_afterCalls_pending :
  forall n l l',
    Forall (fun r => r <> NUL) (pending (buffer l)) ->
    afterCalls n l = Some l' ->
    Forall (fun r => r <> NUL) (pending (buffer l')).
Proof.
  induction n as [|n IH]; intros l l' Hp Ha; simpl in Ha.
  - inv Ha. assumption.
  - destruct (FetchToken l) as [[res l1]|] eqn:Hf; [|discriminate].
    apply (IH l1); [|assumption].
    eapply selector_fetchLoop_pending; eassumption.
Qed.

Lemma selector_exhausted_fixpoint :
  FetchToken {| buffer := {| pending := []; lastRead := None |} |} =
  Some (Token {| Symbol := exprSymbolEnd; Text := [] |},
        {| buffer := {| pending := []; lastRead := None |} |}).
Proof. reflexivity. Qed.

Lemma selector_exhausted_afterCalls :
  forall n,
    afterCalls n {| buffer := {| pending := []; lastRead := None |} |} =
    Some {| buffer := {| pending := []; lastRead := None |} |}.
Proof.
  induction n as [|n IH]; [reflexivity|].
  cbn [afterCalls]. rewrite selector_exhausted_fixpoint. exact IH.
Qed.

(** C10, as amended: over a source without the rune 0, once [FetchToken] has
    returned the end token, every later call returns the end token and no
    error, and leaves the lexer as it is. *)
Theorem selector_End_is_terminal :
  forall (source : gostring) (lexer : exprLexer) (k : nat)
         (l1 l2 : exprLexer) (tok : exprToken),
    Forall (fun r => r <> NUL) source ->
    lexerOver source = inl lexer ->
    afterCalls k lexer = Some l1 ->
    FetchToken l1 = Some (Token tok, l2) ->
    Symbol tok = exprSymbolEnd ->
    forall n, exists l3,
      afterCalls n l2 = Some l3 /\
      FetchToken l3 =
        Some (Token {| Symbol := exprSymbolEnd; Text := [] |}, l3).
Proof.
  intros source lexer k l1 l2 tok Hsrc Hb Hk Hf Hs n.
  assert (Hlex : Forall (fun r => r <> NUL) (pending (buffer lexer))).
  { unfold lexerOver, Build in Hb; simpl in Hb.
    destruct (length source =? 0)%nat; inv Hb. assumption. }
  pose proof (selector_afterCalls_pending _ _ _ Hlex Hk) as H1.
  destruct (selector_fetchLoop_pending _ _ _ _ _ _ H1 Hf) as [_ Hend].
  rewrite (Hend tok eq_refl Hs).
  eexists; split.
  - apply selector_exhausted_afterCalls.
  - apply selector_exhausted_fixpoint.
Qed.

(** C4: an escape decoded in state [S2] leaves the automaton in [S0] with the
    lexeme kept. A comma, a slash or the end of the input met there is
    returned as a token of its own, whose text does not contain the lexeme; a
    space met there is skipped and the lexeme continues. So the tokens of
    [a~0,b] are a comma, the identifier [b] and the end, and [a~0 b] is the
    single identifier [a~b]. *)
Theorem selector_escape_returns_to_start :
  forall (fuel : nat) (lexeme rest : gostring) (last : option rune)
         (e d : rune),
    In (e, d) [(DIGIT0, TILDE); (DIGIT1, SLASH); (LOWER_A, COMMA)] ->
    let lex p lr := {| buffer := {| pending := p; lastRead := lr |} |} in
    (fetchLoop (S fuel) (lex (e :: rest) last) S2 lexeme =
       fetchLoop fuel (lex rest (Some e)) S0 (lexeme ++ [d])) /\
    (fetchLoop (S (S fuel)) (lex (e :: COMMA :: rest) last) S2 lexeme =
       Some (Token {| Symbol := exprSymbolComma; Text := runes "," |},
             lex rest (Some COMMA))) /\
    (fetchLoop (S (S fuel)) (lex (e :: SLASH :: rest) last) S2 lexeme =
       Some (Token {| Symbol := exprSymbolSlash; Text := runes "/" |},
             lex rest (Some SLASH))) /\
    (fetchLoop (S (S fuel)) (lex [e] last) S2 lexeme =
       Some (Token {| Symbol := exprSymbolEnd; Text := [] |}, lex [] None)) /\
    (forall ws, IsSpace ws = true ->
       fetchLoop (S (S fuel)) (lex (e :: ws :: rest) last) S2 lexeme =
         fetchLoop fuel (lex rest (Some ws)) S0 (lexeme ++ [d])) /\
    (forall l1, lexerOver (runes "a~0,b") = inl l1 ->
       exists l2 l3 l4,
         FetchToken l1 =
           Some (Token {| Symbol := exprSymbolComma; Text := runes "," |}, l2) /\
         FetchToken l2 =
           Some (Token {| Symbol := exprSymbolIdentifier; Text := runes "b" |},
                 l3) /\
         FetchToken l3 =
           Some (Token {| Symbol := exprSymbolEnd; Text := [] |}, l4)) /\
    (forall l1, lexerOver (runes "a~0 b") = inl l1 ->
       exists l2,
         FetchToken l1 =
           Some (Token {| Symbol := exprSymbolIdentifier;
                          Text := runes "a~b" |}, l2)).
Proof.
  intros fuel lexeme rest last e d Hin lex.
  assert (He : (e = DIGIT0 /\ d = TILDE) \/ (e = DIGIT1 /\ d = SLASH) \/
               (e = LOWER_A /\ d = COMMA)).
  { simpl in Hin. intuition congruence. }
  repeat split.
  - destruct He as [[-> ->]|[[-> ->]|[-> ->]]]; reflexivity.
  - destruct He as [[-> ->]|[[-> ->]|[-> ->]]]; reflexivity.
  - destruct He as [[-> ->]|[[-> ->]|[-> ->]]]; reflexivity.
  - destruct He as [[-> ->]|[[-> ->]|[-> ->]]]; reflexivity.
  - intros ws Hws.
    destruct He as [[-> ->]|[[-> ->]|[-> ->]]];
      cbn [fetchLoop readRune ReadRune lex buffer pending];
      cbn; rewrite Hws; reflexivity.
  - intros l1 H1. inv H1. do 3 eexists. repeat split; reflexivity.
  - intros l1 H1. inv H1. eexists. reflexivity.
Qed.


End SelectorLexer.

(** The source [\x00a]: the end token is followed by an identifier. *)
Lemma selector_End_then_identifier :
  exists lexer l2 l3,
    selector.lexerOver [NUL; LOWER_A] = inl lexer /\
    selector.FetchToken (U := Latin1Only) lexer =
      Some (selector.Token {| selector.Symbol := selector.exprSymbolEnd;
                              selector.Text := [] |}, l2) /\
    selector.FetchToken (U := Latin1Only) l2 =
      Some (selector.Token {| selector.Symbol := selector.exprSymbolIdentifier;
                              selector.Text := runes "a" |}, l3).
Proof. do 3 eexists. repeat split; reflexivity. Qed.

Lemma selector_End_is_terminal_witness :
  exists l3,
    selector.afterCalls (U := Latin1Only) 2
      {| selector.buffer := {| pending := []; lastRead := None |} |} = Some l3 /\
    selector.FetchToken (U := Latin1Only) l3 =
      Some (selector.Token {| selector.Symbol := selector.exprSymbolEnd;
                              selector.Text := [] |}, l3).
Proof.
  apply (@selector_End_is_terminal Latin1Only (runes "a")
           {| selector.buffer := NewBufferString (runes "a") |} 1%nat
           {| selector.buffer := {| pending := []; lastRead := None |} |}
           {| selector.buffer := {| pending := []; lastRead := None |} |}
           {| selector.Symbol := selector.exprSymbolEnd; selector.Text := [] |}).
  - repeat constructor. simpl. lia.
  - reflexivity.
  - reflexivity.
  - reflexivity.
  - reflexivity.
Defined.

Lemma selector_escape_returns_to_start_witness :
  selector.fetchLoop (U := Latin1Only) 3
    {| selector.buffer := {| pending := runes "0,b"; lastRead := Some TILDE |} |}
    selector.S2 (runes "a") =
  Some (selector.Token {| selector.Symbol := selector.exprSymbolComma;
                          selector.Text := runes "," |},
        {| selector.buffer := {| pending := runes "b";
                                 lastRead := Some COMMA |} |}).
Proof.
  apply (@selector_escape_returns_to_start Latin1Only 1%nat (runes "a")
           (runes "b") (Some TILDE) DIGIT0 TILDE).
  simpl. left. reflexivity.
Defined.

(** ** The parser, over any scanner *)

Section ParserFacts.
Context {Lexer : Type} {scanner : filter.Scanner Lexer} {U : UnicodeTables}.
Import filter.

Lemma bind_Return :
  forall A B (m : M A) (k : A -> M B) (t : parseTask Lexer) b t',
    bind m k t = Some (Return b t') ->
    exists a t1, m t = Some (Return a t1) /\ k a t1 = Some (Return b t').
Proof.
  intros A B m k t b t' H. unfold bind in H.
  destruct (m t) as [[a t1|e]|]; try discriminate. eauto.
Qed.

Lemma exprSymbol_eqb_eq :
  forall a b, exprSymbol_eqb a b = true <-> a = b.
Proof.
  intros a b; split.
  - destruct a, b; simpl; intros H; try discriminate; reflexivity.
  - intros ->. destruct b; reflexivity.
Qed.

Ltac bind_inv H :=
  let a := fresh "a" in
  let t1 := fresh "t" in
  let H1 := fresh "H" in
  apply bind_Return in H; destruct H as (a & t1 & H1 & H);
  repeat match goal with u : unit |- _ => destruct u end.

Lemma ensureToken_sets_token :
  forall (t t' : parseTask Lexer),
    ensureToken t = Some (Return tt t') -> token t' <> None.
Proof.
  intros t t' H. unfold ensureToken in H.
  destruct (token t) as [tok|] eqn:Ht.
  - inv H. congruence.
  - unfold fetchToken in H.
    destruct (FetchToken (lexer t)) as [[[tok|e] l]|]; inv H. discriminate.
Qed.

Lemma extends_refl :
  forall A (m : M (Lexer := Lexer) A), extends m m.
Proof. intros A m t out H. exact H. Qed.

Lemma extends_bind :
  forall A B (m m' : M (Lexer := Lexer) A) (k k' : A -> M B),
    extends m m' -> (forall a, extends (k a) (k' a)) ->
    extends (bind m k) (bind m' k').
Proof.
  intros A B m m' k k' Hm Hk t out H. unfold bind in *.
  destruct (m t) as [[a t1|e]|] eqn:E; [| |discriminate].
  - rewrite (Hm _ _ E). apply Hk. exact H.
  - rewrite (Hm _ _ E). exact H.
Qed.

(** A larger budget does not change what a procedure returns. *)
Lemma parsePathFrom_mono :
  forall fuel fuel' segments, (fuel <= fuel')%nat ->
    extends (parsePathFrom fuel segments) (parsePathFrom fuel' segments).
Proof.
  induction fuel as [|fuel IH]; intros fuel' segments Hle.
  - intros t out H. discriminate.
  - destruct fuel' as [|fuel']; [lia|]. cbn [parsePathFrom].
    apply extends_bind; [apply extends_refl|]. intros segment.
    apply extends_bind; [apply extends_refl|]. intros [|].
    + apply extends_bind; [apply extends_refl|]. intros _. apply IH. lia.
    + apply extends_refl.
Qed.

Lemma parseValuesFrom_mono :
  forall fuel fuel' values, (fuel <= fuel')%nat ->
    extends (parseValuesFrom fuel values) (parseValuesFrom fuel' values).
Proof.
  induction fuel as [|fuel IH]; intros fuel' values Hle.
  - intros t out H. discriminate.
  - destruct fuel' as [|fuel']; [lia|]. cbn [parseValuesFrom].
    apply extends_bind; [apply extends_refl|]. intros value.
    apply extends_bind; [apply extends_refl|]. intros [|].
    + apply extends_bind; [apply extends_refl|]. intros _. apply IH. lia.
    + apply extends_refl.
Qed.

Lemma parseTerm_mono :
  forall fuel fuel', (fuel <= fuel')%nat ->
    extends (parseTerm fuel) (parseTerm fuel').
Proof.
  intros fuel fuel' Hle. unfold parseTerm.
  apply extends_bind; [apply extends_refl|]. intros _.
  apply extends_bind; [apply extends_refl|]. intros operator.
  apply extends_bind; [apply extends_refl|]. intros _.
  apply extends_bind; [apply parsePathFrom_mono; assumption|]. intros path.
  apply extends_bind; [apply extends_refl|]. intros _.
  apply extends_bind; [apply extends_refl|]. intros _.
  apply extends_bind; [|intros values; apply extends_refl].
  unfold parseOptionalValues.
  apply extends_bind; [apply extends_refl|]. intros [|].
  - apply extends_refl.
  - apply extends_bind; [apply extends_refl|]. intros [|].
    + apply parseValuesFrom_mono. assumption.
    + apply extends_refl.
Qed.

Lemma parseExprFrom_mono :
  forall fuel fuel' budget budget' terms,
    (fuel <= fuel')%nat -> (budget <= budget')%nat ->
    extends (parseExprFrom fuel budget terms)
            (parseExprFrom fuel' budget' terms).
Proof.
  induction fuel as [|fuel IH]; intros fuel' budget budget' terms Hle Hb.
  - intros t out H. discriminate.
  - destruct fuel' as [|fuel']; [lia|]. cbn [parseExprFrom].
    apply extends_bind; [apply parseTerm_mono; assumption|]. intros term.
    apply extends_bind; [apply extends_refl|]. intros [|].
    + apply extends_bind; [apply extends_refl|]. intros _. apply IH; lia.
    + apply extends_refl.
Qed.

Lemma Parse_mono :
  forall fuel fuel' text r, (fuel <= fuel')%nat ->
    Parse fuel text = Some r -> Parse fuel' text = Some r.
Proof.
  intros fuel fuel' text r Hle H. unfold Parse in *.
  destruct (newLexerOver text) as [l|e]; [|exact H].
  destruct (parseExpr fuel _) as [out|] eqn:E; [|discriminate].
  unfold parseExpr in *.
  rewrite (parseExprFrom_mono fuel fuel' fuel fuel' [] Hle Hle _ _ E).
  exact H.
Qed.

Section TokenInvariant.
Variable good : exprToken -> Prop.
Hypothesis fetched_good :
  forall (l l' : Lexer) tok, FetchToken l = Some (Token tok, l') -> good tok.

Lemma fetchToken_held :
  forall (t : parseTask Lexer) t', fetchToken t = Some (Return tt t') -> heldTokenIs good t'.
Proof.
  intros t t' H. unfold fetchToken in H.
  destruct (FetchToken (lexer t)) as [[[tok|e] l]|] eqn:Hf; try discriminate.
  inv H. intros tok' Ht. simpl in Ht. inv Ht. eauto.
Qed.

Lemma ensureToken_held :
  forall (t : parseTask Lexer) t', heldTokenIs good t -> ensureToken t = Some (Return tt t') ->
    heldTokenIs good t'.
Proof.
  intros t t' Hi H. unfold ensureToken in H.
  destruct (token t) eqn:Ht.
  - inv H. assumption.
  - eapply fetchToken_held; eassumption.
Qed.

Lemma theToken_held :
  forall (t : parseTask Lexer) tok t', heldTokenIs good t -> theToken t = Some (Return tok t') ->
    t' = t /\ token t = Some tok /\ good tok.
Proof.
  intros t tok t' Hi H. unfold theToken in H.
  destruct (token t) eqn:Ht; inv H. auto.
Qed.

Lemma currentToken_held :
  forall (t : parseTask Lexer) tok t', heldTokenIs good t ->
    currentToken t = Some (Return tok t') ->
    heldTokenIs good t' /\ token t' = Some tok /\ good tok.
Proof.
  intros t tok t' Hi H. unfold currentToken in H. bind_inv H.
  pose proof (ensureToken_held _ _ Hi H0) as Hi1.
  destruct (theToken_held _ _ _ Hi1 H) as (-> & Ht & Hg). auto.
Qed.

Lemma checkToken_held :
  forall symbol (t : parseTask Lexer) b t', heldTokenIs good t ->
    checkToken symbol t = Some (Return b t') -> heldTokenIs good t'.
Proof.
  intros symbol t b t' Hi H. unfold checkToken in H. bind_inv H.
  pose proof (ensureToken_held _ _ Hi H0) as Hi1.
  bind_inv H. destruct (theToken_held _ _ _ Hi1 H1) as (-> & _ & _).
  unfold ret in H. inv H. assumption.
Qed.

(** A consumed token had the symbol asked for; no token is held after. *)
Lemma consumeToken_held :
  forall symbol (t : parseTask Lexer) tok t',
    token t = Some tok -> consumeToken symbol t = Some (Return tt t') ->
    Symbol tok = symbol /\ token t' = None.
Proof.
  intros symbol t tok t' Ht H.
  unfold consumeToken, bind, ensureToken, theToken in H.
  rewrite Ht in H. cbn beta iota in H. rewrite Ht in H. cbn beta iota in H.
  destruct (exprSymbol_eqb (Symbol tok) symbol) eqn:He; simpl in H.
  - inv H. split; [apply exprSymbol_eqb_eq; assumption | reflexivity].
  - discriminate.
Qed.

Lemma consumeToken_releases :
  forall symbol (t : parseTask Lexer) t',
    consumeToken symbol t = Some (Return tt t') -> token t' = None.
Proof.
  intros symbol t t' H. unfold consumeToken in H. bind_inv H. bind_inv H.
  destruct (negb _); [discriminate|]. inv H. reflexivity.
Qed.

Lemma heldTokenIs_None :
  forall (t : parseTask Lexer), token t = None -> heldTokenIs good t.
Proof. intros t Ht tok H. congruence. Qed.

Lemma parseIdentifier_held :
  forall (t : parseTask Lexer) s t', heldTokenIs good t ->
    parseIdentifier t = Some (Return s t') ->
    good {| Symbol := exprSymbolIdentifier; Text := s |} /\ token t' = None.
Proof.
  intros t s t' Hi H. unfold parseIdentifier in H. bind_inv H.
  destruct (currentToken_held _ _ _ Hi H0) as (Hi1 & Ht & Hg).
  bind_inv H.
  destruct (consumeToken_held _ _ _ _ Ht H1) as (Hs & Hn).
  unfold ret in H. inv H. split; [|assumption].
  destruct a as [sym txt]; simpl in *. subst. assumption.
Qed.

Lemma parseValue_held :
  forall (t : parseTask Lexer) s t', heldTokenIs good t ->
    parseValue t = Some (Return s t') ->
    good {| Symbol := exprSymbolString; Text := s |} /\ token t' = None.
Proof.
  intros t s t' Hi H. unfold parseValue in H. bind_inv H.
  destruct (currentToken_held _ _ _ Hi H0) as (Hi1 & Ht & Hg).
  bind_inv H.
  destruct (consumeToken_held _ _ _ _ Ht H1) as (Hs & Hn).
  unfold ret in H. inv H. split; [|assumption].
  destruct a as [sym txt]; simpl in *. subst. assumption.
Qed.

Lemma parseOperator_held :
  forall (t : parseTask Lexer) op t',
    parseOperator t = Some (Return op t') ->
    (exists name, operatorNamed name = Some op) /\ token t' = None.
Proof.
  intros t op t' H. unfold parseOperator in H. bind_inv H.
  unfold parseIdentifier in H0. bind_inv H0. bind_inv H0.
  apply consumeToken_releases in H2. unfold ret in H0. inv H0.
  destruct (operatorNamed _) eqn:Hop; inv H. eauto.
Qed.

Lemma parsePathFrom_held :
  forall fuel segments (t : parseTask Lexer) path t',
    heldTokenIs good t ->
    Forall (fun s => good {| Symbol := exprSymbolIdentifier; Text := s |})
      segments ->
    parsePathFrom fuel segments t = Some (Return path t') ->
    path <> [] /\
    Forall (fun s => good {| Symbol := exprSymbolIdentifier; Text := s |}) path /\
    heldTokenIs good t'.
Proof.
  induction fuel as [|fuel IH]; intros segments t path t' Hi Hs H;
    simpl in H; [discriminate|].
  bind_inv H. destruct (parseIdentifier_held _ _ _ Hi H0) as (Hg & Hn).
  assert (Hs' : Forall (fun s => good {| Symbol := exprSymbolIdentifier;
                                         Text := s |}) (segments ++ [a])).
  { apply Forall_app. split; [assumption|]. constructor; [assumption|constructor]. }
  bind_inv H.
  pose proof (checkToken_held _ _ _ _ (heldTokenIs_None _ Hn) H1) as Hi1.
  destruct a0.
  - bind_inv H. apply fetchToken_held in H2.
    exact (IH _ _ _ _ H2 Hs' H).
  - bind_inv H. pose proof (checkToken_held _ _ _ _ Hi1 H2) as Hi2.
    destruct a0.
    + unfold ret in H. inv H. repeat split; try assumption.
      destruct segments; discriminate.
    + bind_inv H. discriminate.
Qed.

Lemma parseValuesFrom_held :
  forall fuel values (t : parseTask Lexer) vs t',
    heldTokenIs good t ->
    Forall (fun s => good {| Symbol := exprSymbolString; Text := s |}) values ->
    parseValuesFrom fuel values t = Some (Return vs t') ->
    Forall (fun s => good {| Symbol := exprSymbolString; Text := s |}) vs /\
    heldTokenIs good t'.
Proof.
  induction fuel as [|fuel IH]; intros values t vs t' Hi Hs H;
    simpl in H; [discriminate|].
  bind_inv H. destruct (parseValue_held _ _ _ Hi H0) as (Hg & Hn).
  assert (Hs' : Forall (fun s => good {| Symbol := exprSymbolString;
                                         Text := s |}) (values ++ [a])).
  { apply Forall_app. split; [assumption|]. constructor; [assumption|constructor]. }
  bind_inv H.
  pose proof (checkToken_held _ _ _ _ (heldTokenIs_None _ Hn) H1) as Hi1.
  destruct a0.
  - bind_inv H. apply fetchToken_held in H2.
    exact (IH _ _ _ _ H2 Hs' H).
  - bind_inv H. pose proof (checkToken_held _ _ _ _ Hi1 H2) as Hi2.
    destruct a0.
    + unfold ret in H. inv H. split; assumption.
    + bind_inv H. discriminate.
Qed.

Lemma parseOptionalValues_held :
  forall fuel (t : parseTask Lexer) vs t',
    heldTokenIs good t ->
    parseOptionalValues fuel t = Some (Return vs t') ->
    Forall (fun s => good {| Symbol := exprSymbolString; Text := s |}) vs /\
    heldTokenIs good t'.
Proof.
  intros fuel t vs t' Hi H. unfold parseOptionalValues in H. bind_inv H.
  pose proof (checkToken_held _ _ _ _ Hi H0) as Hi1.
  destruct a.
  - unfold ret in H. inv H. split; [constructor|assumption].
  - bind_inv H. pose proof (checkToken_held _ _ _ _ Hi1 H1) as Hi2.
    destruct a.
    + eapply parseValuesFrom_held; [eassumption|constructor|eassumption].
    + bind_inv H. discriminate.
Qed.

Lemma parseTerm_held :
  forall fuel (t : parseTask Lexer) term t',
    parseTerm fuel t = Some (Return term t') ->
    termMadeOf good term /\ token t' = None.
Proof.
  intros fuel t term t' H. unfold parseTerm in H.
  bind_inv H. apply consumeToken_releases in H0.
  bind_inv H. apply parseOperator_held in H1. destruct H1 as [Hop H1].
  bind_inv H. apply consumeToken_releases in H2.
  bind_inv H.
  destruct (parsePathFrom_held _ _ _ _ _ (heldTokenIs_None _ H2)
              (Forall_nil _) H3) as (Hne & Hp & _).
  bind_inv H. apply consumeToken_releases in H4.
  bind_inv H. unfold setLexerMode in H5. inv H5.
  bind_inv H.
  destruct (parseOptionalValues_held fuel _ _ _
              (heldTokenIs_None {| lexer := SetMode exprValuesMode (lexer t4);
                                   token := token t4 |} H4) H5) as (Hv & _).
  bind_inv H. bind_inv H. apply consumeToken_releases in H7.
  unfold ret in H. inv H. split; [|assumption].
  repeat split; assumption.
Qed.

Lemma parseExprFrom_held :
  forall fuel budget terms (t : parseTask Lexer) expr t',
    Forall (termMadeOf good) terms ->
    parseExprFrom fuel budget terms t = Some (Return expr t') ->
    exprMadeOf good expr.
Proof.
  induction fuel as [|fuel IH]; intros budget terms t expr t' Hs H;
    simpl in H; [discriminate|].
  bind_inv H. destruct (parseTerm_held _ _ _ _ H0) as (Hterm & Hn).
  assert (Hs' : Forall (termMadeOf good) (terms ++ [a])).
  { apply Forall_app. split; [assumption|]. constructor; [assumption|constructor]. }
  bind_inv H. destruct a0.
  - bind_inv H. exact (IH _ _ _ _ _ Hs' H).
  - bind_inv H. destruct a0.
    + unfold ret in H. inv H. split; simpl; [|assumption].
      destruct terms; discriminate.
    + bind_inv H. discriminate.
Qed.

Lemma Parse_made_of :
  forall fuel text expr,
    Parse fuel text = Some (Some expr, None) -> exprMadeOf good expr.
Proof.
  intros fuel text expr H. unfold Parse in H.
  destruct (newLexerOver text) as [l|e]; [|discriminate].
  destruct (parseExpr fuel _) as [[e t'|e]|] eqn:Hp; inv H.
  unfold parseExpr in Hp. eapply parseExprFrom_held; [constructor|eassumption].
Qed.

End TokenInvariant.

(** *** The steps of the loops, in terms of the tokens fetched *)

Lemma bind_eval :
  forall A B (m : M A) (k : A -> M B) (t t1 : parseTask Lexer) a,
    m t = Some (Return a t1) -> bind m k t = k a t1.
Proof. intros A B m k t t1 a H. unfold bind. rewrite H. reflexivity. Qed.

Lemma checkToken_fetches :
  forall symbol (l l1 : Lexer) tok,
    FetchToken l = Some (Token tok, l1) ->
    checkToken symbol {| lexer := l; token := None |} =
    Some (Return (exprSymbol_eqb (Symbol tok) symbol)
            {| lexer := l1; token := Some tok |}).
Proof.
  intros symbol l l1 tok H.
  unfold checkToken, bind, ensureToken, fetchToken; simpl. rewrite H.
  reflexivity.
Qed.

Lemma consumeToken_fetches :
  forall (l l1 : Lexer) tok,
    FetchToken l = Some (Token tok, l1) ->
    consumeToken (Symbol tok) {| lexer := l; token := None |} =
    Some (Return tt {| lexer := l1; token := None |}).
Proof.
  intros l l1 tok H.
  unfold consumeToken, bind, ensureToken, fetchToken; simpl. rewrite H.
  simpl. replace (exprSymbol_eqb (Symbol tok) (Symbol tok)) with true.
  - reflexivity.
  - symmetry. apply exprSymbol_eqb_eq. reflexivity.
Qed.

Lemma consumeToken_held_token :
  forall (l : Lexer) tok,
    consumeToken (Symbol tok) {| lexer := l; token := Some tok |} =
    Some (Return tt {| lexer := l; token := None |}).
Proof.
  intros l tok. unfold consumeToken, bind, ensureToken, theToken; simpl.
  replace (exprSymbol_eqb (Symbol tok) (Symbol tok)) with true.
  - reflexivity.
  - symmetry. apply exprSymbol_eqb_eq. reflexivity.
Qed.

Lemma fetchToken_fetches :
  forall (l l1 : Lexer) held tok,
    FetchToken l = Some (Token tok, l1) ->
    fetchToken {| lexer := l; token := held |} =
    Some (Return tt {| lexer := l1; token := Some tok |}).
Proof.
  intros l l1 held tok H. unfold fetchToken; simpl. rewrite H. reflexivity.
Qed.

Lemma parsePathFrom_prefetch :
  forall fuel segments (l l1 : Lexer) tok,
    FetchToken l = Some (Token tok, l1) ->
    parsePathFrom fuel segments {| lexer := l; token := None |} =
    parsePathFrom fuel segments {| lexer := l1; token := Some tok |}.
Proof.
  intros [|fuel] segments l l1 tok H; [reflexivity|].
  cbn [parsePathFrom].
  unfold bind at 1, parseIdentifier, bind at 1, currentToken, bind at 1.
  unfold bind at 4, parseIdentifier, bind at 4, currentToken, bind at 4.
  unfold ensureToken, fetchToken; simpl. rewrite H. reflexivity.
Qed.

Lemma parseIdentifier_held_token :
  forall (l : Lexer) s,
    parseIdentifier
      {| lexer := l;
         token := Some {| Symbol := exprSymbolIdentifier; Text := s |} |} =
    Some (Return s {| lexer := l; token := None |}).
Proof. reflexivity. Qed.

Lemma parseValue_held_token :
  forall (l : Lexer) s,
    parseValue
      {| lexer := l;
         token := Some {| Symbol := exprSymbolString; Text := s |} |} =
    Some (Return s {| lexer := l; token := None |}).
Proof. reflexivity. Qed.

Lemma parsePathFrom_more :
  forall fuel segments p (l l1 l2 : Lexer) t1 t2,
    FetchToken l = Some (Token t1, l1) ->
    Symbol t1 = exprSymbolSlash ->
    FetchToken l1 = Some (Token t2, l2) ->
    parsePathFrom (S fuel) segments
      {| lexer := l;
         token := Some {| Symbol := exprSymbolIdentifier; Text := p |} |} =
    parsePathFrom fuel (segments ++ [p]) {| lexer := l2; token := Some t2 |}.
Proof.
  intros fuel segments p l l1 l2 t1 t2 H1 Hs H2. cbn [parsePathFrom].
  rewrite (bind_eval _ _ _ _ _ _ _ (parseIdentifier_held_token l p)).
  rewrite (bind_eval _ _ _ _ _ _ _ (checkToken_fetches _ _ _ _ H1)).
  rewrite Hs. cbn [exprSymbol_eqb].
  rewrite (bind_eval _ _ _ _ _ _ _ (fetchToken_fetches _ _ _ _ H2)).
  reflexivity.
Qed.

Lemma parsePathFrom_last :
  forall fuel segments p (l l1 : Lexer) t1,
    FetchToken l = Some (Token t1, l1) ->
    Symbol t1 = exprSymbolComma ->
    parsePathFrom (S fuel) segments
      {| lexer := l;
         token := Some {| Symbol := exprSymbolIdentifier; Text := p |} |} =
    Some (Return (segments ++ [p]) {| lexer := l1; token := Some t1 |}).
Proof.
  intros fuel segments p l l1 t1 H1 Hs. cbn [parsePathFrom].
  rewrite (bind_eval _ _ _ _ _ _ _ (parseIdentifier_held_token l p)).
  rewrite (bind_eval _ _ _ _ _ _ _ (checkToken_fetches _ _ _ _ H1)).
  rewrite Hs. cbn [exprSymbol_eqb].
  unfold bind, checkToken, bind, ensureToken, theToken, ret; simpl.
  rewrite Hs. reflexivity.
Qed.

Lemma parseValuesFrom_more :
  forall fuel values v (l l1 l2 : Lexer) t1 t2,
    FetchToken l = Some (Token t1, l1) ->
    Symbol t1 = exprSymbolComma ->
    FetchToken l1 = Some (Token t2, l2) ->
    parseValuesFrom (S fuel) values
      {| lexer := l;
         token := Some {| Symbol := exprSymbolString; Text := v |} |} =
    parseValuesFrom fuel (values ++ [v]) {| lexer := l2; token := Some t2 |}.
Proof.
  intros fuel values v l l1 l2 t1 t2 H1 Hs H2. cbn [parseValuesFrom].
  rewrite (bind_eval _ _ _ _ _ _ _ (parseValue_held_token l v)).
  rewrite (bind_eval _ _ _ _ _ _ _ (checkToken_fetches _ _ _ _ H1)).
  rewrite Hs. cbn [exprSymbol_eqb].
  rewrite (bind_eval _ _ _ _ _ _ _ (fetchToken_fetches _ _ _ _ H2)).
  reflexivity.
Qed.

Lemma parseValuesFrom_last :
  forall fuel values v (l l1 : Lexer) t1,
    FetchToken l = Some (Token t1, l1) ->
    Symbol t1 = exprSymbolRightParenthesis ->
    parseValuesFrom (S fuel) values
      {| lexer := l;
         token := Some {| Symbol := exprSymbolString; Text := v |} |} =
    Some (Return (values ++ [v]) {| lexer := l1; token := Some t1 |}).
Proof.
  intros fuel values v l l1 t1 H1 Hs. cbn [parseValuesFrom].
  rewrite (bind_eval _ _ _ _ _ _ _ (parseValue_held_token l v)).
  rewrite (bind_eval _ _ _ _ _ _ _ (checkToken_fetches _ _ _ _ H1)).
  rewrite Hs. cbn [exprSymbol_eqb].
  unfold bind, checkToken, bind, ensureToken, theToken, ret; simpl.
  rewrite Hs. reflexivity.
Qed.

Lemma parseOptionalValues_none :
  forall fuel (l l1 : Lexer) t1,
    FetchToken l = Some (Token t1, l1) ->
    Symbol t1 = exprSymbolRightParenthesis ->
    parseOptionalValues fuel {| lexer := l; token := None |} =
    Some (Return [] {| lexer := l1; token := Some t1 |}).
Proof.
  intros fuel l l1 t1 H1 Hs. unfold parseOptionalValues.
  rewrite (bind_eval _ _ _ _ _ _ _ (checkToken_fetches _ _ _ _ H1)).
  rewrite Hs. reflexivity.
Qed.

Lemma parseOptionalValues_some :
  forall fuel (l l1 : Lexer) v,
    FetchToken l =
      Some (Token {| Symbol := exprSymbolString; Text := v |}, l1) ->
    parseOptionalValues fuel {| lexer := l; token := None |} =
    parseValuesFrom fuel []
      {| lexer := l1;
         token := Some {| Symbol := exprSymbolString; Text := v |} |}.
Proof.
  intros fuel l l1 v H1. unfold parseOptionalValues.
  rewrite (bind_eval _ _ _ _ _ _ _ (checkToken_fetches _ _ _ _ H1)).
  reflexivity.
Qed.

Lemma parseOperator_fetches :
  forall (l l1 : Lexer) name op,
    FetchToken l =
      Some (Token {| Symbol := exprSymbolIdentifier; Text := name |}, l1) ->
    operatorNamed (strings_ToLower name) = Some op ->
    parseOperator {| lexer := l; token := None |} =
    Some (Return op {| lexer := l1; token := None |}).
Proof.
  intros l l1 name op H1 Hop.
  unfold parseOperator, bind, parseIdentifier, bind, currentToken, bind,
    ensureToken, fetchToken; simpl.
  rewrite H1. simpl. rewrite Hop. reflexivity.
Qed.

(** A term, from the tokens that make it. *)
Lemma parseTerm_steps :
  forall fuel (l l1 l2 l3 l4 : Lexer) open name op comma1 path comma2 values
         close,
    Symbol open = exprSymbolLeftParenthesis ->
    FetchToken l =
      Some (Token {| Symbol := exprSymbolIdentifier; Text := name |}, l1) ->
    operatorNamed (strings_ToLower name) = Some op ->
    FetchToken l1 = Some (Token comma1, l2) ->
    Symbol comma1 = exprSymbolComma ->
    parsePath fuel {| lexer := l2; token := None |} =
      Some (Return path {| lexer := l3; token := Some comma2 |}) ->
    Symbol comma2 = exprSymbolComma ->
    parseOptionalValues fuel
      {| lexer := SetMode exprValuesMode l3; token := None |} =
      Some (Return values {| lexer := l4; token := Some close |}) ->
    Symbol close = exprSymbolRightParenthesis ->
    parseTerm fuel {| lexer := l; token := Some open |} =
    Some (Return {| Term_Operator := op; Term_Path := path;
                    Term_Values := values |}
            {| lexer := SetMode exprDefaultMode l4; token := None |}).
Proof.
  intros fuel l l1 l2 l3 l4 open name op comma1 path comma2 values close
    Hopen Hname Hop Hc1 Hs1 Hpath Hs2 Hvalues Hclose.
  unfold parseTerm.
  rewrite <- Hopen.
  rewrite (bind_eval _ _ _ _ _ _ _ (consumeToken_held_token l open)).
  rewrite (bind_eval _ _ _ _ _ _ _ (parseOperator_fetches _ _ _ _ Hname Hop)).
  rewrite <- Hs1.
  rewrite (bind_eval _ _ _ _ _ _ _ (consumeToken_fetches _ _ _ Hc1)).
  rewrite (bind_eval _ _ _ _ _ _ _ Hpath).
  rewrite Hs1, <- Hs2.
  rewrite (bind_eval _ _ _ _ _ _ _ (consumeToken_held_token l3 comma2)).
  unfold bind at 1, setLexerMode at 1. cbn [lexer token].
  rewrite (bind_eval _ _ _ _ _ _ _ Hvalues).
  unfold bind at 1, setLexerMode at 1. cbn [lexer token].
  rewrite <- Hclose.
  rewrite (bind_eval _ _ _ _ _ _ _ (consumeToken_held_token _ close)).
  reflexivity.
Qed.

Lemma parseTerm_prefetch :
  forall fuel (l l1 : Lexer) tok,
    FetchToken l = Some (Token tok, l1) ->
    parseTerm fuel {| lexer := l; token := None |} =
    parseTerm fuel {| lexer := l1; token := Some tok |}.
Proof.
  intros fuel l l1 tok H. unfold parseTerm.
  unfold bind at 1, consumeToken at 1, bind at 1.
  unfold bind at 9, consumeToken at 3, bind at 9.
  unfold ensureToken, fetchToken; simpl. rewrite H. reflexivity.
Qed.

Lemma parseExprFrom_prefetch :
  forall fuel budget terms (l l1 : Lexer) tok,
    FetchToken l = Some (Token tok, l1) ->
    parseExprFrom fuel budget terms {| lexer := l; token := None |} =
    parseExprFrom fuel budget terms {| lexer := l1; token := Some tok |}.
Proof.
  intros [|fuel] budget terms l l1 tok H; [reflexivity|].
  cbn [parseExprFrom]. unfold bind at 1. unfold bind at 5.
  rewrite (parseTerm_prefetch _ _ _ _ H). reflexivity.
Qed.

Lemma parseExprFrom_more :
  forall fuel budget terms (t : parseTask Lexer) term (l l1 l2 : Lexer) t1 t2,
    parseTerm budget t = Some (Return term {| lexer := l; token := None |}) ->
    FetchToken l = Some (Token t1, l1) ->
    Symbol t1 = exprSymbolSemicolon ->
    FetchToken l1 = Some (Token t2, l2) ->
    parseExprFrom (S fuel) budget terms t =
    parseExprFrom fuel budget (terms ++ [term])
      {| lexer := l2; token := Some t2 |}.
Proof.
  intros fuel budget terms t term l l1 l2 t1 t2 Ht H1 Hs H2.
  cbn [parseExprFrom].
  rewrite (bind_eval _ _ _ _ _ _ _ Ht).
  rewrite (bind_eval _ _ _ _ _ _ _ (checkToken_fetches _ _ _ _ H1)).
  rewrite Hs. cbn [exprSymbol_eqb].
  rewrite (bind_eval _ _ _ _ _ _ _ (fetchToken_fetches _ _ _ _ H2)).
  reflexivity.
Qed.

Lemma parseExprFrom_last :
  forall fuel budget terms (t : parseTask Lexer) term (l l1 : Lexer) t1,
    parseTerm budget t = Some (Return term {| lexer := l; token := None |}) ->
    FetchToken l = Some (Token t1, l1) ->
    Symbol t1 = exprSymbolEnd ->
    parseExprFrom (S fuel) budget terms t =
    Some (Return {| Terms := terms ++ [term] |}
            {| lexer := l1; token := Some t1 |}).
Proof.
  intros fuel budget terms t term l l1 t1 Ht H1 Hs.
  cbn [parseExprFrom].
  rewrite (bind_eval _ _ _ _ _ _ _ Ht).
  rewrite (bind_eval _ _ _ _ _ _ _ (checkToken_fetches _ _ _ _ H1)).
  rewrite Hs. cbn [exprSymbol_eqb].
  unfold bind, checkToken, bind, ensureToken, theToken, ret; simpl.
  rewrite Hs. reflexivity.
Qed.

(** C1, at the failing input: whatever the capitalisation of [lte], the
    switch of [parseOperator] selects [Gt], and [parseOperator] returns [Gt]
    on a task that holds this identifier. *)
Theorem parseOperator_lte_is_Gt :
  Forall
    (fun name =>
       operatorNamed (strings_ToLower name) = Some Gt /\
       forall l : Lexer,
         parseOperator
           {| lexer := l;
              token := Some {| Symbol := exprSymbolIdentifier; Text := name |} |}
         = Some (Return Gt {| lexer := l; token := None |}))
    (map runes ["lte"; "Lte"; "lTe"; "ltE"; "LTe"; "LtE"; "lTE"; "LTE"]).
Proof. repeat constructor. Qed.

(** C9: an expression returned by [Parse] has at least one term, and the path
    of each of its terms has at least one segment. *)
Theorem Parse_terms_and_paths_nonempty :
  forall (fuel : nat) (text : gostring) (expr : Expr),
    Parse fuel text = Some (Some expr, None) ->
    Terms expr <> [] /\ Forall (fun t => Term_Path t <> []) (Terms expr).
Proof.
  intros fuel text expr H.
  destruct (Parse_made_of (fun _ => True) (fun _ _ _ _ => I) _ _ _ H)
    as (Hne & Hall).
  split; [assumption|].
  eapply Forall_impl; [|exact Hall]. intros t (_ & Ht & _). exact Ht.
Qed.

End ParserFacts.

(** ** The parser over the scanner of package [filter] *)

Section FilterParser.
Context {U : UnicodeTables}.
Import filter.

(** *** Termination *)

Lemma fetchInDefaultMode_progress :
  forall fuel l state lexeme,
    (remaining l < fuel)%nat ->
    exists res l',
      filter_lexer.fetchInDefaultMode fuel l state lexeme = Some (res, l') /\
      (remaining l' <= remaining l)%nat /\
      (state = filter_lexer.S0 -> forall tok, res = Token tok ->
         Symbol tok <> exprSymbolEnd -> (remaining l' < remaining l)%nat).
Proof.
  induction fuel as [|fuel IH]; intros [m [p lr]] state lexeme Hlen;
    unfold remaining in *; simpl in *; [lia|].
  unfold filter_lexer.readRune, ReadRune; simpl.
  destruct p as [|r rest]; simpl in *.
  - destruct state; rewrite ?IsSpace_NUL, ?IsLetter_NUL, ?IsDigit_NUL; simpl;
      do 2 eexists; (split; [reflexivity|]); simpl; (split; [lia|]);
      intros Hs tok Ht Hne; inv Ht; try discriminate; simpl in Hne;
      congruence.
  - destruct state; repeat split_if;
      try (match goal with
           | |- context [filter_lexer.fetchInDefaultMode fuel ?l1 ?st ?lx] =>
               destruct (IH l1 st lx) as (res & l' & Hf & Hle & _);
               [simpl; lia|]; rewrite Hf
           end;
           do 2 eexists; (split; [reflexivity|]); simpl in *;
           split; [lia | intros; lia]);
      do 2 eexists; (split; [reflexivity|]); simpl;
      (split; [lia | intros; try discriminate; lia]).
Qed.

Lemma fetchInValuesMode_progress :
  forall fuel l state lexeme,
    (remaining l < fuel)%nat ->
    exists res l',
      filter_lexer.fetchInValuesMode fuel l state lexeme = Some (res, l') /\
      (remaining l' <= remaining l)%nat /\
      (state = filter_lexer.S0 -> forall tok, res = Token tok ->
         Symbol tok <> exprSymbolEnd -> (remaining l' < remaining l)%nat).
Proof.
  induction fuel as [|fuel IH]; intros [m [p lr]] state lexeme Hlen;
    unfold remaining in *; simpl in *; [lia|].
  unfold filter_lexer.readRune, ReadRune; simpl.
  destruct p as [|r rest]; simpl in *.
  - destruct state; rewrite ?IsSpace_NUL; simpl;
      do 2 eexists; (split; [reflexivity|]); simpl; (split; [lia|]);
      intros Hs tok Ht Hne; inv Ht; try discriminate; simpl in Hne;
      congruence.
  - destruct state; repeat split_if;
      try (match goal with
           | |- context [filter_lexer.fetchInValuesMode fuel ?l1 ?st ?lx] =>
               destruct (IH l1 st lx) as (res & l' & Hf & Hle & _);
               [simpl; lia|]; rewrite Hf
           end;
           do 2 eexists; (split; [reflexivity|]); simpl in *;
           split; [lia | intros; lia]);
      do 2 eexists; (split; [reflexivity|]); simpl;
      (split; [lia | intros; try discriminate; lia]).
Qed.

Lemma FetchToken_progress :
  forall l,
    exists res l',
      filter_lexer.FetchToken l = Some (res, l') /\
      (remaining l' <= remaining l)%nat /\
      (forall tok, res = Token tok -> Symbol tok <> exprSymbolEnd ->
         (remaining l' < remaining l)%nat).
Proof.
  intros l. unfold filter_lexer.FetchToken.
  destruct (filter_lexer.mode l).
  - destruct (fetchInDefaultMode_progress (S (remaining l)) l
                filter_lexer.S0 []) as (res & l' & Hf & Hle & Hlt);
      [lia|]. exists res, l'.
    split; [exact Hf | split; [exact Hle | exact (Hlt eq_refl)]].
  - destruct (fetchInValuesMode_progress (S (remaining l)) l
                filter_lexer.S0 []) as (res & l' & Hf & Hle & Hlt);
      [lia|]. exists res, l'.
    split; [exact Hf | split; [exact Hle | exact (Hlt eq_refl)]].
Qed.

Lemma runsTo_bind :
  forall A B (m : M A) (k : A -> M B) (t : parseTask filter_lexer.exprLexer)
         (Q : A -> parseTask filter_lexer.exprLexer -> Prop)
         (R : B -> parseTask filter_lexer.exprLexer -> Prop),
    runsTo m t Q ->
    (forall a t1, Q a t1 -> runsTo (k a) t1 R) ->
    runsTo (bind m k) t R.
Proof.
  intros A B m k t Q R (out & Hm & HQ) Hk. unfold runsTo, bind. rewrite Hm.
  destruct out as [a t1|e].
  - apply Hk. apply HQ. reflexivity.
  - eexists. split; [reflexivity|]. intros a t' H. discriminate.
Qed.

Lemma runsTo_ret :
  forall A (a : A) (t : parseTask filter_lexer.exprLexer)
         (Q : A -> parseTask filter_lexer.exprLexer -> Prop),
    Q a t -> runsTo (ret a) t Q.
Proof.
  intros A a t Q H. eexists. split; [reflexivity|].
  intros a' t' E. inv E. assumption.
Qed.

Lemma runsTo_panic :
  forall A (e : error) (t : parseTask filter_lexer.exprLexer)
         (Q : A -> parseTask filter_lexer.exprLexer -> Prop),
    runsTo (panic e) t Q.
Proof.
  intros A e t Q. eexists. split; [reflexivity|]. intros a' t' E. discriminate.
Qed.

Lemma runsTo_weaken :
  forall A (m : M A) (t : parseTask filter_lexer.exprLexer)
         (Q R : A -> parseTask filter_lexer.exprLexer -> Prop),
    runsTo m t Q -> (forall a t', Q a t' -> R a t') -> runsTo m t R.
Proof.
  intros A m t Q R (out & Hm & HQ) HR. exists out. split; [assumption|].
  intros a t' E. apply HR, HQ, E.
Qed.

Lemma remaining_le_potential :
  forall t : parseTask filter_lexer.exprLexer,
    (remaining (lexer t) <= potential t)%nat.
Proof. intros t. unfold potential. lia. Qed.

Lemma fetchToken_runs :
  forall t : parseTask filter_lexer.exprLexer,
    runsTo fetchToken t
      (fun _ t' => (potential t' <= remaining (lexer t))%nat /\
                   exists tok, token t' = Some tok).
Proof.
  intros t. unfold runsTo, fetchToken.
  destruct (FetchToken_progress (lexer t)) as (res & l' & Hf & Hle & Hlt).
  change (@FetchToken _ filter_lexer.scanner) with filter_lexer.FetchToken.
  rewrite Hf. destruct res as [tok|e].
  - eexists. split; [reflexivity|]. intros ? t' E. inv E.
    split; [|simpl; eauto]. unfold potential; simpl.
    destruct (exprSymbol_eqb (Symbol tok) exprSymbolEnd) eqn:He; [lia|].
    assert (Symbol tok <> exprSymbolEnd).
    { intros E. apply exprSymbol_eqb_eq in E. congruence. }
    specialize (Hlt tok eq_refl H). lia.
  - eexists. split; [reflexivity|]. intros ? t' E. discriminate.
Qed.

Lemma ensureToken_runs :
  forall t : parseTask filter_lexer.exprLexer,
    runsTo ensureToken t
      (fun _ t' => (potential t' <= potential t)%nat /\
                   exists tok, token t' = Some tok).
Proof.
  intros t. unfold runsTo, ensureToken.
  destruct (token t) as [tok|] eqn:Ht.
  - eexists. split; [reflexivity|]. intros ? t' E. inv E. eauto.
  - destruct (fetchToken_runs t) as (out & Hout & HQ).
    exists out. split; [assumption|].
    intros a t' E. destruct (HQ a t' E) as [Hle Htok]. split; [|assumption].
    pose proof (remaining_le_potential t). lia.
Qed.

Lemma currentToken_runs :
  forall t : parseTask filter_lexer.exprLexer,
    runsTo currentToken t
      (fun tok t' => (potential t' <= potential t)%nat /\
                     token t' = Some tok).
Proof.
  intros t. unfold currentToken.
  eapply runsTo_bind; [apply ensureToken_runs|].
  intros ? t1 [Hle [tok Htok]]. unfold runsTo, theToken. rewrite Htok.
  eexists. split; [reflexivity|]. intros ? t' E. inv E. auto.
Qed.

Lemma checkToken_runs :
  forall symbol (t : parseTask filter_lexer.exprLexer),
    runsTo (checkToken symbol) t
      (fun _ t' => (potential t' <= potential t)%nat /\
                   exists tok, token t' = Some tok).
Proof.
  intros symbol t. unfold checkToken.
  eapply runsTo_bind; [apply ensureToken_runs|].
  intros ? t1 [Hle [tok Htok]].
  unfold runsTo, bind, theToken, ret. rewrite Htok.
  eexists. split; [reflexivity|]. intros ? t' E. inv E. eauto.
Qed.

Lemma consumeToken_runs :
  forall symbol (t : parseTask filter_lexer.exprLexer),
    symbol <> exprSymbolEnd ->
    runsTo (consumeToken symbol) t
      (fun _ t' => (potential t' < potential t)%nat /\ token t' = None).
Proof.
  intros symbol t Hs. unfold consumeToken.
  eapply runsTo_bind; [apply ensureToken_runs|].
  intros ? t1 [Hle [tok Htok]].
  unfold runsTo, bind, theToken, panic. rewrite Htok.
  destruct (exprSymbol_eqb (Symbol tok) symbol) eqn:He; simpl.
  - eexists. split; [reflexivity|]. intros ? t' E. inv E. simpl.
    split; [|reflexivity].
    apply exprSymbol_eqb_eq in He.
    unfold potential in *; simpl. rewrite Htok in Hle.
    destruct (exprSymbol_eqb (Symbol tok) exprSymbolEnd) eqn:He2.
    + apply exprSymbol_eqb_eq in He2. congruence.
    + lia.
  - eexists. split; [reflexivity|]. intros ? t' E. discriminate.
Qed.

Lemma parseIdentifier_runs :
  forall t : parseTask filter_lexer.exprLexer,
    runsTo parseIdentifier t
      (fun _ t' => (potential t' < potential t)%nat /\ token t' = None).
Proof.
  intros t. unfold parseIdentifier.
  eapply runsTo_bind; [apply currentToken_runs|].
  intros tok t1 [Hle Htok].
  eapply runsTo_bind; [apply consumeToken_runs; discriminate|].
  intros ? t2 [Hlt Hn]. apply runsTo_ret. split; [lia|assumption].
Qed.

Lemma parseValue_runs :
  forall t : parseTask filter_lexer.exprLexer,
    runsTo parseValue t
      (fun _ t' => (potential t' < potential t)%nat /\ token t' = None).
Proof.
  intros t. unfold parseValue.
  eapply runsTo_bind; [apply currentToken_runs|].
  intros tok t1 [Hle Htok].
  eapply runsTo_bind; [apply consumeToken_runs; discriminate|].
  intros ? t2 [Hlt Hn]. apply runsTo_ret. split; [lia|assumption].
Qed.

Lemma parseOperator_runs :
  forall t : parseTask filter_lexer.exprLexer,
    runsTo parseOperator t
      (fun _ t' => (potential t' < potential t)%nat /\ token t' = None).
Proof.
  intros t. unfold parseOperator.
  eapply runsTo_bind; [apply parseIdentifier_runs|].
  intros name t1 H. destruct (operatorNamed _).
  - apply runsTo_ret. assumption.
  - apply runsTo_panic.
Qed.

Lemma parsePathFrom_runs :
  forall fuel segments (t : parseTask filter_lexer.exprLexer),
    (potential t < fuel)%nat ->
    runsTo (parsePathFrom fuel segments) t
      (fun _ t' => (potential t' <= potential t)%nat).
Proof.
  induction fuel as [|fuel IH]; intros segments t Hfuel; [lia|].
  cbn [parsePathFrom].
  eapply runsTo_bind; [apply parseIdentifier_runs|].
  intros segment t1 [Hlt1 _].
  eapply runsTo_bind; [apply checkToken_runs|].
  intros slash t2 [Hle2 _]. destruct slash.
  - eapply runsTo_bind; [apply fetchToken_runs|].
    intros ? t3 [Hle3 _]. pose proof (remaining_le_potential t2).
    eapply runsTo_weaken; [apply IH; lia|].
    intros ? t' Hle. simpl in Hle. lia.
  - eapply runsTo_bind; [apply checkToken_runs|].
    intros comma t3 [Hle3 _]. destruct comma.
    + apply runsTo_ret. lia.
    + eapply runsTo_bind; [apply currentToken_runs|].
      intros tok t4 _. apply runsTo_panic.
Qed.

Lemma parseValuesFrom_runs :
  forall fuel values (t : parseTask filter_lexer.exprLexer),
    (potential t < fuel)%nat ->
    runsTo (parseValuesFrom fuel values) t
      (fun _ t' => (potential t' <= potential t)%nat).
Proof.
  induction fuel as [|fuel IH]; intros values t Hfuel; [lia|].
  cbn [parseValuesFrom].
  eapply runsTo_bind; [apply parseValue_runs|].
  intros value t1 [Hlt1 _].
  eapply runsTo_bind; [apply checkToken_runs|].
  intros comma t2 [Hle2 _]. destruct comma.
  - eapply runsTo_bind; [apply fetchToken_runs|].
    intros ? t3 [Hle3 _]. pose proof (remaining_le_potential t2).
    eapply runsTo_weaken; [apply IH; lia|].
    intros ? t' Hle. simpl in Hle. lia.
  - eapply runsTo_bind; [apply checkToken_runs|].
    intros close t3 [Hle3 _]. destruct close.
    + apply runsTo_ret. lia.
    + eapply runsTo_bind; [apply currentToken_runs|].
      intros tok t4 _. apply runsTo_panic.
Qed.

Lemma parseOptionalValues_runs :
  forall fuel (t : parseTask filter_lexer.exprLexer),
    (potential t < fuel)%nat ->
    runsTo (parseOptionalValues fuel) t
      (fun _ t' => (potential t' <= potential t)%nat).
Proof.
  intros fuel t Hfuel. unfold parseOptionalValues.
  eapply runsTo_bind; [apply checkToken_runs|].
  intros close t1 [Hle1 _]. destruct close.
  - apply runsTo_ret. lia.
  - eapply runsTo_bind; [apply checkToken_runs|].
    intros str t2 [Hle2 _]. destruct str.
    + eapply runsTo_weaken; [apply parseValuesFrom_runs; lia|].
      intros ? t' Hle. simpl in Hle. lia.
    + eapply runsTo_bind; [apply currentToken_runs|].
      intros tok t4 _. apply runsTo_panic.
Qed.

Lemma setLexerMode_runs :
  forall mode (t : parseTask filter_lexer.exprLexer),
    runsTo (setLexerMode mode) t
      (fun _ t' => potential t' = potential t /\ token t' = token t).
Proof.
  intros mode t. eexists. split; [reflexivity|].
  intros ? t' E. inv E. split; reflexivity.
Qed.

Lemma parseTerm_runs :
  forall fuel (t : parseTask filter_lexer.exprLexer),
    (potential t < fuel)%nat ->
    runsTo (parseTerm fuel) t
      (fun _ t' => (potential t' < potential t)%nat /\ token t' = None).
Proof.
  intros fuel t Hfuel. unfold parseTerm.
  eapply runsTo_bind; [apply consumeToken_runs; discriminate|].
  intros ? t1 [H1 _].
  eapply runsTo_bind; [apply parseOperator_runs|].
  intros operator t2 [H2 _].
  eapply runsTo_bind; [apply consumeToken_runs; discriminate|].
  intros ? t3 [H3 _].
  eapply runsTo_bind; [apply parsePathFrom_runs; lia|].
  intros path t4 H4. simpl in H4.
  eapply runsTo_bind; [apply consumeToken_runs; discriminate|].
  intros ? t5 [H5 _].
  eapply runsTo_bind; [apply setLexerMode_runs|].
  intros ? t6 [H6 _].
  eapply runsTo_bind; [apply parseOptionalValues_runs; lia|].
  intros values t7 H7. simpl in H7.
  eapply runsTo_bind; [apply setLexerMode_runs|].
  intros ? t8 [H8 _].
  eapply runsTo_bind; [apply consumeToken_runs; discriminate|].
  intros ? t9 [H9 Hn].
  apply runsTo_ret. split; [lia|assumption].
Qed.

Lemma parseExprFrom_runs :
  forall fuel budget terms (t : parseTask filter_lexer.exprLexer),
    (potential t < fuel)%nat -> (potential t < budget)%nat ->
    runsTo (parseExprFrom fuel budget terms) t (fun _ _ => True).
Proof.
  induction fuel as [|fuel IH]; intros budget terms t Hfuel Hbudget; [lia|].
  cbn [parseExprFrom].
  eapply runsTo_bind; [apply parseTerm_runs; lia|].
  intros term t1 [H1 _].
  eapply runsTo_bind; [apply checkToken_runs|].
  intros semicolon t2 [H2 _]. destruct semicolon.
  - eapply runsTo_bind; [apply fetchToken_runs|].
    intros ? t3 [H3 _]. pose proof (remaining_le_potential t2).
    apply IH; lia.
  - eapply runsTo_bind; [apply checkToken_runs|].
    intros last t3 _. destruct last.
    + apply runsTo_ret. exact I.
    + eapply runsTo_bind; [apply currentToken_runs|].
      intros tok t4 _. apply runsTo_panic.
Qed.

Lemma Parse_returns :
  forall (fuel : nat) (text : gostring),
    (length text < fuel)%nat -> exists r, Parse fuel text = Some r.
Proof.
  intros fuel text Hfuel. unfold Parse.
  destruct (newLexerOver text) as [l|e] eqn:Hb; [|eauto].
  assert (Hl : remaining l = length text).
  { cbn in Hb. unfold filter_lexer.lexerOver, filter_lexer.Build in Hb.
    simpl in Hb. destruct (length text =? 0)%nat; inv Hb. reflexivity. }
  destruct (parseExprFrom_runs fuel fuel [] {| lexer := l; token := None |})
    as (out & Hout & _).
  - unfold potential; simpl. lia.
  - unfold potential; simpl. lia.
  - unfold parseExpr. rewrite Hout. destruct out; eauto.
Qed.

(** C6: whatever the text, [Parse] with enough budget for its loops returns,
    and what it returns is an expression with a nil error or a nil expression
    with an error; this second part holds over any scanner. *)
Theorem Parse_returns_expr_or_error :
  (forall (Lexer : Type) (scanner : Scanner Lexer) (fuel : nat)
          (text : gostring) (r : option Expr * option error),
     Parse fuel text = Some r ->
     (exists expr, r = (Some expr, None)) \/
     (exists err, r = (None, Some err))) /\
  (forall (fuel : nat) (text : gostring),
     (length text < fuel)%nat ->
     exists r,
       Parse (scanner := filter_lexer.scanner) fuel text = Some r /\
       ((exists expr, r = (Some expr, None)) \/
        (exists err, r = (None, Some err)))).
Proof.
  assert (Hex : forall (Lexer : Type) (scanner : Scanner Lexer) (fuel : nat)
                       (text : gostring) (r : option Expr * option error),
             Parse fuel text = Some r ->
             (exists expr, r = (Some expr, None)) \/
             (exists err, r = (None, Some err))).
  { intros Lexer scanner fuel text r H. unfold Parse in H.
    destruct (newLexerOver text) as [l|e].
    - destruct (parseExpr fuel _) as [[expr t'|e]|]; inv H; eauto.
    - inv H. eauto. }
  split; [exact Hex|].
  intros fuel text Hfuel.
  destruct (Parse_returns fuel text Hfuel) as [r Hr].
  exists r. split; [assumption|]. eapply Hex. eassumption.
Qed.

(** *** The texts of the tokens *)

Lemma isEscaped_cases :
  forall r, isEscaped r = true -> r = TILDE \/ r = SLASH \/ r = COMMA.
Proof.
  intros r H. unfold isEscaped in H.
  apply orb_true_iff in H. destruct H as [H|H].
  - apply orb_true_iff in H. destruct H as [H|H]; apply Z.eqb_eq in H; auto.
  - apply Z.eqb_eq in H; auto.
Qed.

Lemma isEscaped_not_continues :
  forall r, isEscaped r = true -> continuesIdentifier r = false.
Proof.
  intros r H. destruct (isEscaped_cases r H) as [-> | [-> | ->]]; reflexivity.
Qed.

Lemma starts_not_isEscaped :
  forall r, (IsLetter r || (r =? UNDERSCORE)) = true -> isEscaped r = false.
Proof.
  intros r H. destruct (isEscaped r) eqn:E; [|reflexivity].
  destruct (isEscaped_cases r E) as [-> | [-> | ->]]; discriminate H.
Qed.

Lemma hasEscape_cases :
  forall r, hasEscape r = true ->
    r = TILDE \/ r = SLASH \/ r = COMMA \/ r = AT.
Proof.
  intros r H. unfold hasEscape in H. apply orb_true_iff in H.
  destruct H as [H|H].
  - destruct (isEscaped_cases r H) as [-> | [-> | ->]]; auto.
  - apply Z.eqb_eq in H. auto.
Qed.





(** *** Scanning canonical text *)

Lemma continues_escapeRune :
  forall r, continuesIdentifier r = true -> search.escapeRune r = [r].
Proof.
  intros r H. unfold search.escapeRune.
  repeat match goal with
         | |- context [?a =? ?b] =>
             destruct (Z.eqb_spec a b) as [->|]; [discriminate H|]
         end.
  reflexivity.
Qed.

Lemma starts_escapeRune :
  forall r, (IsLetter r || (r =? UNDERSCORE)) = true ->
    search.escapeRune r = [r].
Proof.
  intros r H. unfold search.escapeRune.
  repeat match goal with
         | |- context [?a =? ?b] =>
             destruct (Z.eqb_spec a b) as [->|]; [discriminate H|]
         end.
  reflexivity.
Qed.

Lemma fetchInDefaultMode_segment :
  forall s (inside : bool) lexeme rest m last fuel,
    writtenFrom inside s = true ->
    stopsIdentifier rest = true ->
    (length (flat_map search.escapeRune s) < fuel)%nat ->
    filter_lexer.fetchInDefaultMode fuel
      (lexerAt m (flat_map search.escapeRune s ++ rest) last)
      (if inside then filter_lexer.S1 else filter_lexer.S0) lexeme =
    Some (Token {| Symbol := exprSymbolIdentifier; Text := lexeme ++ s |},
          lexerAt m rest None).
Proof.
  induction s as [|r s IH]; intros inside lexeme rest m last fuel Hs Hr Hf.
  - simpl in Hs. subst inside. destruct fuel as [|fuel]; [simpl in Hf; lia|].
    rewrite app_nil_r. destruct rest as [|c rest]; [reflexivity|].
    simpl in Hr. apply andb_true_iff in Hr. destruct Hr as [Hc Ht].
    apply negb_true_iff in Hc, Ht. unfold continuesIdentifier in Hc.
    simpl. rewrite Hc, Ht. reflexivity.
  - simpl in Hs. destruct inside.
    + destruct (continuesIdentifier r) eqn:Hc.
      * simpl in Hf |- *. rewrite (continues_escapeRune r Hc) in Hf |- *.
        destruct fuel as [|fuel]; [simpl in Hf; lia|].
        unfold continuesIdentifier in Hc. simpl. rewrite Hc.
        change (lexeme ++ r :: s) with (lexeme ++ [r] ++ s).
        rewrite app_assoc.
        apply (IH true); [assumption|assumption|simpl in Hf; lia].
      * destruct (hasEscape r) eqn:He; [|discriminate].
        change (lexeme ++ r :: s) with (lexeme ++ [r] ++ s).
        rewrite app_assoc.
        destruct (hasEscape_cases r He) as [-> | [-> | [-> | ->]]];
          (destruct fuel as [|[|fuel]]; [simpl in Hf; lia|simpl in Hf; lia|]);
          simpl in Hf |- *;
          (apply (IH false); [assumption|assumption|lia]).
    + destruct (hasEscape r) eqn:He.
      * change (lexeme ++ r :: s) with (lexeme ++ [r] ++ s).
        rewrite app_assoc.
        destruct (hasEscape_cases r He) as [-> | [-> | [-> | ->]]];
          (destruct fuel as [|[|fuel]]; [simpl in Hf; lia|simpl in Hf; lia|]);
          simpl in Hf |- *;
          (apply (IH false); [assumption|assumption|lia]).
      * destruct (startsIdentifier r) eqn:Hst; [|discriminate].
        unfold startsIdentifier in Hst. apply andb_true_iff in Hst.
        destruct Hst as [Hsp Hl]. apply negb_true_iff in Hsp.
        simpl in Hf |- *. rewrite (starts_escapeRune r Hl) in Hf |- *.
        destruct fuel as [|fuel]; [simpl in Hf; lia|].
        simpl. rewrite Hsp, Hl. cbn [orb].
        change (lexeme ++ r :: s) with (lexeme ++ [r] ++ s).
        rewrite app_assoc.
        apply (IH true); [assumption|assumption|simpl in Hf; lia].
Qed.

Lemma fetchInValuesMode_literal :
  forall v lexeme rest m last fuel,
    Forall (fun r => r <> NUL) v ->
    closesString rest = true ->
    (length (flat_map search.quoteRune v) + 1 < fuel)%nat ->
    filter_lexer.fetchInValuesMode fuel
      (lexerAt m (flat_map search.quoteRune v ++ APOSTROPHE :: rest) last)
      filter_lexer.S1 lexeme =
    Some (Token {| Symbol := exprSymbolString; Text := lexeme ++ v |},
          lexerAt m rest None).
Proof.
  induction v as [|r v IH]; intros lexeme rest m last fuel Hv Hr Hf.
  - destruct fuel as [|[|fuel]]; [simpl in Hf; lia|simpl in Hf; lia|].
    rewrite app_nil_r. destruct rest as [|c rest]; [reflexivity|].
    simpl in Hr. apply negb_true_iff in Hr. simpl. rewrite Hr. reflexivity.
  - inv Hv. change (lexeme ++ r :: v) with (lexeme ++ [r] ++ v).
    rewrite app_assoc. cbn [flat_map] in Hf |- *.
    destruct (r =? APOSTROPHE) eqn:Hq.
    + apply Z.eqb_eq in Hq. subst r.
      change (search.quoteRune APOSTROPHE) with [APOSTROPHE; APOSTROPHE]
        in Hf |- *.
      destruct fuel as [|[|fuel]]; [simpl in Hf; lia|simpl in Hf; lia|].
      simpl in Hf |- *. apply IH; [assumption|assumption|lia].
    + assert (Hone : search.quoteRune r = [r]).
      { unfold search.quoteRune. rewrite Hq. reflexivity. }
      rewrite Hone in Hf |- *.
      destruct fuel as [|fuel]; [simpl in Hf; lia|].
      simpl in Hf |- *. rewrite Hq.
      destruct (Z.eqb_spec r NUL) as [E|_]; [contradiction|].
      apply IH; [assumption|assumption|lia].
Qed.

Lemma eqString_eq :
  forall a b, eqString a b = true -> a = b.
Proof.
  induction a as [|x a IH]; intros [|y b] H; simpl in H; try discriminate.
  - reflexivity.
  - apply andb_true_iff in H. destruct H as [Hx Hab].
    apply Z.eqb_eq in Hx. subst y. rewrite (IH b Hab). reflexivity.
Qed.

(** The segment [@key], which the serializer writes as it is, is read as it
    is. *)
Lemma fetchInDefaultMode_at_key :
  forall rest m last fuel,
    stopsIdentifier rest = true ->
    (4 < fuel)%nat ->
    filter_lexer.fetchInDefaultMode fuel
      (lexerAt m (runes "@key" ++ rest) last) filter_lexer.S0 [] =
    Some (Token {| Symbol := exprSymbolIdentifier; Text := runes "@key" |},
          lexerAt m rest None).
Proof.
  intros rest m last fuel Hr Hf.
  do 5 (destruct fuel as [|fuel]; [lia|]).
  destruct rest as [|c rest]; [reflexivity|].
  simpl in Hr. apply andb_true_iff in Hr. destruct Hr as [Hc Ht].
  apply negb_true_iff in Hc, Ht. unfold continuesIdentifier in Hc.
  simpl. rewrite Hc, Ht. reflexivity.
Qed.

Lemma FetchToken_identifier :
  forall s rest last,
    writtenFrom false s = true ->
    stopsIdentifier rest = true ->
    FetchToken
      (lexerAt exprDefaultMode (search.escapePathSegment s ++ rest) last) =
    Some (Token {| Symbol := exprSymbolIdentifier; Text := s |},
          lexerAt exprDefaultMode rest None).
Proof.
  intros s rest last Hs Hr.
  change (@FetchToken _ filter_lexer.scanner) with filter_lexer.FetchToken.
  unfold filter_lexer.FetchToken.
  cbn [filter_lexer.mode lexerAt filter_lexer.buffer pending].
  unfold search.escapePathSegment.
  destruct (eqString s (runes "@key")) eqn:E.
  - apply eqString_eq in E. subst s.
    apply fetchInDefaultMode_at_key; [assumption|].
    rewrite length_app. simpl. lia.
  - apply (fetchInDefaultMode_segment s false [] rest);
      [assumption|assumption|].
    rewrite length_app. lia.
Qed.

Lemma quoteValue_app :
  forall v rest,
    search.quoteValue v ++ rest =
    APOSTROPHE :: flat_map search.quoteRune v ++ APOSTROPHE :: rest.
Proof.
  intros v rest. unfold search.quoteValue. simpl.
  rewrite <- app_assoc. reflexivity.
Qed.

Lemma fetchInValuesMode_open :
  forall fuel m p last,
    filter_lexer.fetchInValuesMode (S fuel)
      (lexerAt m (APOSTROPHE :: p) last) filter_lexer.S0 [] =
    filter_lexer.fetchInValuesMode fuel
      (lexerAt m p (Some APOSTROPHE)) filter_lexer.S1 [].
Proof. reflexivity. Qed.

Lemma FetchToken_string :
  forall v rest last,
    Forall (fun r => r <> NUL) v ->
    closesString rest = true ->
    FetchToken
      (lexerAt exprValuesMode (search.quoteValue v ++ rest) last) =
    Some (Token {| Symbol := exprSymbolString; Text := v |},
          lexerAt exprValuesMode rest None).
Proof.
  intros v rest last Hv Hr. rewrite quoteValue_app.
  change (@FetchToken _ filter_lexer.scanner) with filter_lexer.FetchToken.
  unfold filter_lexer.FetchToken.
  cbn [filter_lexer.mode lexerAt filter_lexer.buffer pending].
  change (filter_lexer.fetchInValuesMode
            (S (length (flat_map search.quoteRune v ++ APOSTROPHE :: rest)))
            (lexerAt exprValuesMode
               (flat_map search.quoteRune v ++ APOSTROPHE :: rest)
               (Some APOSTROPHE)) filter_lexer.S1 [] =
          Some (Token {| Symbol := exprSymbolString; Text := [] ++ v |},
                lexerAt exprValuesMode rest None)).
  apply fetchInValuesMode_literal; [assumption|assumption|].
  rewrite length_app. simpl. lia.
Qed.

Lemma FetchToken_default_punctuation :
  forall rest last,
    FetchToken (lexerAt exprDefaultMode (COMMA :: rest) last) =
      Some (Token {| Symbol := exprSymbolComma; Text := [COMMA] |},
            lexerAt exprDefaultMode rest (Some COMMA)) /\
    FetchToken (lexerAt exprDefaultMode (SLASH :: rest) last) =
      Some (Token {| Symbol := exprSymbolSlash; Text := [SLASH] |},
            lexerAt exprDefaultMode rest (Some SLASH)) /\
    FetchToken (lexerAt exprDefaultMode (SEMICOLON :: rest) last) =
      Some (Token {| Symbol := exprSymbolSemicolon; Text := [SEMICOLON] |},
            lexerAt exprDefaultMode rest (Some SEMICOLON)) /\
    FetchToken (lexerAt exprDefaultMode (LPAREN :: rest) last) =
      Some (Token {| Symbol := exprSymbolLeftParenthesis; Text := [LPAREN] |},
            lexerAt exprDefaultMode rest (Some LPAREN)) /\
    FetchToken (lexerAt exprDefaultMode [] last) =
      Some (Token {| Symbol := exprSymbolEnd; Text := [] |},
            lexerAt exprDefaultMode [] None).
Proof. intros rest last. repeat split; reflexivity. Qed.


Lemma FetchToken_left_parenthesis :
  forall rest last,
    FetchToken (lexerAt exprDefaultMode (LPAREN :: rest) last) =
    Some (Token {| Symbol := exprSymbolLeftParenthesis; Text := [LPAREN] |},
          lexerAt exprDefaultMode rest (Some LPAREN)).
Proof. reflexivity. Qed.

Lemma FetchToken_end :
  forall last,
    FetchToken (lexerAt exprDefaultMode [] last) =
    Some (Token {| Symbol := exprSymbolEnd; Text := [] |},
          lexerAt exprDefaultMode [] None).
Proof. reflexivity. Qed.

Lemma FetchToken_values_punctuation :
  forall rest last,
    FetchToken (lexerAt exprValuesMode (COMMA :: rest) last) =
      Some (Token {| Symbol := exprSymbolComma; Text := [COMMA] |},
            lexerAt exprValuesMode rest (Some COMMA)) /\
    FetchToken (lexerAt exprValuesMode (RPAREN :: rest) last) =
      Some (Token {| Symbol := exprSymbolRightParenthesis; Text := [RPAREN] |},
            lexerAt exprValuesMode rest (Some RPAREN)).
Proof. intros rest last. repeat split; reflexivity. Qed.

(** *** Parsing canonical text *)

Lemma stops_pathTail :
  forall path rest, stopsIdentifier (pathTail path ++ COMMA :: rest) = true.
Proof. intros [|q path] rest; reflexivity. Qed.

Lemma closes_valuesTail :
  forall values rest,
    closesString (valuesTail values ++ RPAREN :: rest) = true.
Proof. intros [|v values] rest; reflexivity. Qed.

Lemma parsePathFrom_canonical :
  forall path segments p rest last fuel,
    Forall (fun s => writtenFrom false s = true) path ->
    (length path < fuel)%nat ->
    parsePathFrom fuel segments
      {| lexer := lexerAt exprDefaultMode (pathTail path ++ COMMA :: rest) last;
         token := Some {| Symbol := exprSymbolIdentifier; Text := p |} |} =
    Some (Return (segments ++ p :: path)
            {| lexer := lexerAt exprDefaultMode rest (Some COMMA);
               token := Some {| Symbol := exprSymbolComma;
                                Text := [COMMA] |} |}).
Proof.
  induction path as [|q path IH]; intros segments p rest last fuel Hp Hf;
    (destruct fuel as [|fuel]; [simpl in Hf; lia|]).
  - apply parsePathFrom_last
      with (t1 := {| Symbol := exprSymbolComma; Text := [COMMA] |});
      [|reflexivity].
    apply FetchToken_default_punctuation.
  - inv Hp. cbn [pathTail flat_map]. rewrite <- !app_comm_cons.
    rewrite <- app_assoc.
    fold (pathTail path).
    etransitivity; [exact (parsePathFrom_more fuel segments p _ _ _ _ _
               (proj1 (proj2 (FetchToken_default_punctuation _ last)))
               eq_refl
               (FetchToken_identifier q _ (Some SLASH) H1
                  (stops_pathTail path rest)))|].
    rewrite IH; [|assumption|simpl in Hf; lia].
    rewrite <- app_assoc. reflexivity.
Qed.

Lemma parseValuesFrom_canonical :
  forall vs values v rest last fuel,
    Forall (fun w => Forall (fun r => r <> NUL) w) vs ->
    (length vs < fuel)%nat ->
    parseValuesFrom fuel values
      {| lexer := lexerAt exprValuesMode (valuesTail vs ++ RPAREN :: rest) last;
         token := Some {| Symbol := exprSymbolString; Text := v |} |} =
    Some (Return (values ++ v :: vs)
            {| lexer := lexerAt exprValuesMode rest (Some RPAREN);
               token := Some {| Symbol := exprSymbolRightParenthesis;
                                Text := [RPAREN] |} |}).
Proof.
  induction vs as [|w vs IH]; intros values v rest last fuel Hv Hf;
    (destruct fuel as [|fuel]; [simpl in Hf; lia|]).
  - apply parseValuesFrom_last
      with (t1 := {| Symbol := exprSymbolRightParenthesis;
                     Text := [RPAREN] |});
      [|reflexivity].
    apply FetchToken_values_punctuation.
  - inv Hv. cbn [valuesTail flat_map]. rewrite <- !app_comm_cons.
    rewrite <- app_assoc.
    fold (valuesTail vs).
    etransitivity; [exact (parseValuesFrom_more fuel values v _ _ _ _ _
               (proj1 (FetchToken_values_punctuation _ last))
               eq_refl
               (FetchToken_string w _ (Some COMMA) H1
                  (closes_valuesTail vs rest)))|].
    rewrite IH; [|assumption|simpl in Hf; lia].
    rewrite <- app_assoc. reflexivity.
Qed.

Lemma Join_path :
  forall p path,
    search.Join (map search.escapePathSegment (p :: path)) (runes "/") =
    search.escapePathSegment p ++ pathTail path.
Proof.
  intros p path. revert p.
  induction path as [|q path IH]; intros p.
  - simpl. rewrite app_nil_r. reflexivity.
  - change (search.Join (map search.escapePathSegment (p :: q :: path))
              (runes "/")) with
      (search.escapePathSegment p ++ runes "/" ++
       search.Join (map search.escapePathSegment (q :: path)) (runes "/")).
    rewrite (IH q). reflexivity.
Qed.

Lemma Join_values :
  forall v vs,
    search.Join (map search.quoteValue (v :: vs)) (runes ",") =
    search.quoteValue v ++ valuesTail vs.
Proof.
  intros v vs. revert v.
  induction vs as [|w vs IH]; intros v.
  - simpl. rewrite app_nil_r. reflexivity.
  - change (search.Join (map search.quoteValue (v :: w :: vs)) (runes ",")) with
      (search.quoteValue v ++ runes "," ++
       search.Join (map search.quoteValue (w :: vs)) (runes ",")).
    rewrite (IH w). reflexivity.
Qed.


Lemma parseOptionalValues_canonical :
  forall values rest last fuel,
    Forall (fun w => Forall (fun r => r <> NUL) w) values ->
    (length values <= fuel)%nat ->
    parseOptionalValues fuel
      {| lexer := lexerAt exprValuesMode
                    (search.Join (map search.quoteValue values) (runes ",") ++
                     RPAREN :: rest) last;
         token := None |} =
    Some (Return values
            {| lexer := lexerAt exprValuesMode rest (Some RPAREN);
               token := Some {| Symbol := exprSymbolRightParenthesis;
                                Text := [RPAREN] |} |}).
Proof.
  intros [|v vs] rest last fuel Hv Hf.
  - apply parseOptionalValues_none
      with (t1 := {| Symbol := exprSymbolRightParenthesis;
                     Text := [RPAREN] |});
      [|reflexivity].
    apply FetchToken_values_punctuation.
  - inv Hv. rewrite Join_values, <- app_assoc.
    etransitivity; [exact (parseOptionalValues_some fuel _ _ v
               (FetchToken_string v _ last H1 (closes_valuesTail vs rest)))|].
    rewrite parseValuesFrom_canonical; [reflexivity|assumption|].
    simpl in Hf. lia.
Qed.

Lemma parsePath_canonical :
  forall path rest last fuel,
    path <> [] ->
    Forall (fun s => writtenFrom false s = true) path ->
    (length path <= fuel)%nat ->
    parsePath fuel
      {| lexer := lexerAt exprDefaultMode
                    (search.Join (map search.escapePathSegment path)
                       (runes "/") ++ COMMA :: rest) last;
         token := None |} =
    Some (Return path
            {| lexer := lexerAt exprDefaultMode rest (Some COMMA);
               token := Some {| Symbol := exprSymbolComma;
                                Text := [COMMA] |} |}).
Proof.
  intros [|p path] rest last fuel Hne Hp Hf; [contradiction|].
  rewrite (Join_path p path), <- app_assoc. inv Hp. unfold parsePath.
  etransitivity; [exact (parsePathFrom_prefetch fuel [] _ _ _
             (FetchToken_identifier p _ last H1 (stops_pathTail path rest)))|].
  rewrite parsePathFrom_canonical; [reflexivity|assumption|].
  simpl in Hf. lia.
Qed.

Lemma operatorNames_scanned :
  forall name, List.In name operatorNames ->
    writtenFrom false name = true /\
    search.escapePathSegment name = name /\
    strings_ToLower name = name.
Proof.
  intros name H. unfold operatorNames in H. simpl in H.
  repeat (destruct H as [<-|H]; [repeat split; reflexivity|]).
  contradiction.
Qed.

Lemma termText_app :
  forall name path values rest,
    termText name path values ++ rest =
    name ++ COMMA ::
    search.Join (map search.escapePathSegment path) (runes "/") ++ COMMA ::
    search.Join (map search.quoteValue values) (runes ",") ++ RPAREN :: rest.
Proof.
  intros name path values rest. unfold termText.
  rewrite <- app_assoc. simpl. rewrite <- app_assoc. simpl.
  rewrite <- app_assoc. reflexivity.
Qed.

Lemma parseTerm_canonical :
  forall name op path values rest last fuel open,
    Symbol open = exprSymbolLeftParenthesis ->
    List.In name operatorNames ->
    operatorNamed name = Some op ->
    path <> [] ->
    Forall (fun s => writtenFrom false s = true) path ->
    Forall (fun w => Forall (fun r => r <> NUL) w) values ->
    (length path <= fuel)%nat ->
    (length values <= fuel)%nat ->
    parseTerm fuel
      {| lexer := lexerAt exprDefaultMode
                    (termText name path values ++ rest) last;
         token := Some open |} =
    Some (Return {| Term_Operator := op; Term_Path := path;
                    Term_Values := values |}
            {| lexer := lexerAt exprDefaultMode rest (Some RPAREN);
               token := None |}).
Proof.
  intros name op path values rest last fuel open Hopen Hin Hop Hne Hp Hv
    Hfp Hfv.
  destruct (operatorNames_scanned name Hin) as (Hseg & Hesc & Hlow).
  rewrite termText_app.
  pose proof (FetchToken_identifier name
                (COMMA ::
                 search.Join (map search.escapePathSegment path) (runes "/") ++
                 COMMA ::
                 search.Join (map search.quoteValue values) (runes ",") ++
                 RPAREN :: rest) last Hseg eq_refl) as Hn.
  rewrite Hesc in Hn.
  rewrite <- Hlow in Hop.
  exact (parseTerm_steps fuel _ _ _ _ _ open name op _ path _ values _
           Hopen Hn Hop
           (proj1 (FetchToken_default_punctuation _ None)) eq_refl
           (parsePath_canonical path _ (Some COMMA) fuel Hne Hp Hfp) eq_refl
           (parseOptionalValues_canonical values rest (Some COMMA) fuel Hv Hfv)
           eq_refl).
Qed.






Lemma Parse_single_term :
  forall name op path values fuel,
    List.In name operatorNames ->
    operatorNamed name = Some op ->
    path <> [] ->
    Forall (fun s => writtenFrom false s = true) path ->
    Forall (fun w => Forall (fun r => r <> NUL) w) values ->
    (length path + length values < fuel)%nat ->
    Parse fuel (LPAREN :: termText name path values) =
    Some (Some {| Terms := [{| Term_Operator := op; Term_Path := path;
                               Term_Values := values |}] |}, None).
Proof.
  intros name op path values fuel Hin Hop Hne Hp Hv Hf.
  unfold Parse.
  change (newLexerOver (LPAREN :: termText name path values))
    with (@inl filter_lexer.exprLexer error
            (lexerAt exprDefaultMode
               (LPAREN :: termText name path values) None)).
  cbv beta iota. unfold parseExpr.
  erewrite parseExprFrom_prefetch by apply FetchToken_left_parenthesis.
  destruct fuel as [|fuel]; [lia|].
  erewrite parseExprFrom_last;
    [reflexivity| |apply FetchToken_end|reflexivity].
  rewrite <- (app_nil_r (termText name path values)).
  apply parseTerm_canonical; try assumption; try reflexivity; lia.
Qed.

(** What [Parse] returns with some budget, it returns with any budget larger
    than the length of the text. *)
Lemma Parse_any_budget :
  forall text r fuel0 fuel,
    Parse fuel0 text = Some r ->
    (length text < fuel)%nat ->
    Parse fuel text = Some r.
Proof.
  intros text r fuel0 fuel H0 Hf.
  destruct (Parse_returns fuel text Hf) as [r' Hr'].
  pose proof (Parse_mono fuel0 (Nat.max fuel0 fuel) text r
                (Nat.le_max_l _ _) H0) as H1.
  pose proof (Parse_mono fuel (Nat.max fuel0 fuel) text r'
                (Nat.le_max_r _ _) Hr') as H2.
  rewrite H1 in H2. inv H2. exact Hr'.
Qed.

(** *** Texts that are read back *)

Lemma segmentFrom_written :
  forall s inside, segmentFrom inside s = true -> writtenFrom inside s = true.
Proof.
  induction s as [|r s IH]; intros inside H; [exact H|].
  simpl in H |- *. unfold hasEscape. destruct inside.
  - destruct (continuesIdentifier r); [apply IH; exact H|].
    destruct (isEscaped r); [apply IH; exact H|discriminate].
  - destruct (isEscaped r); [apply IH; exact H|].
    destruct (startsIdentifier r) eqn:Hst; [|discriminate].
    destruct (Z.eqb_spec r AT) as [->|_]; [discriminate Hst|].
    apply IH. exact H.
Qed.

Lemma segments_written :
  forall path,
    Forall (fun s => segmentFrom false s = true) path ->
    Forall (fun s => writtenFrom false s = true) path.
Proof.
  intros path H. eapply Forall_impl; [|exact H].
  intros s Hs. apply segmentFrom_written. exact Hs.
Qed.






(** C7: when the token fetched after the second comma of a term is the right
    parenthesis, [parseOptionalValues] returns the empty list and keeps the
    token, over any scanner; and over the scanner of package [filter] the
    text of a term that ends in [,)] is parsed into one term without
    values. *)
Theorem Parse_term_without_values :
  (forall (Lexer : Type) (scanner : Scanner Lexer) (fuel : nat)
          (l l1 : Lexer) (close : exprToken),
     FetchToken (SetMode exprValuesMode l) = Some (Token close, l1) ->
     Symbol close = exprSymbolRightParenthesis ->
     bind (setLexerMode exprValuesMode) (fun _ => parseOptionalValues fuel)
       {| lexer := l; token := None |} =
     Some (Return [] {| lexer := l1; token := Some close |})) /\
  (forall (name : gostring) (op : Operator) (path : list gostring)
          (fuel : nat),
     List.In name operatorNames ->
     operatorNamed name = Some op ->
     path <> [] ->
     Forall (fun s => segmentFrom false s = true) path ->
     (length (LPAREN :: termText name path []) < fuel)%nat ->
     Parse fuel (LPAREN :: termText name path []) =
     Some (Some {| Terms := [{| Term_Operator := op; Term_Path := path;
                                Term_Values := [] |}] |}, None)) /\
  (forall fuel : nat,
     (length (runes "(eq,a,)") < fuel)%nat ->
     Parse fuel (runes "(eq,a,)") =
     Some (Some {| Terms := [{| Term_Operator := Eq;
                                Term_Path := [runes "a"];
                                Term_Values := [] |}] |}, None)).
Proof.
  assert (Hgen : forall (name : gostring) (op : Operator)
                        (path : list gostring) (fuel : nat),
             List.In name operatorNames ->
             operatorNamed name = Some op ->
             path <> [] ->
             Forall (fun s => segmentFrom false s = true) path ->
             (length (LPAREN :: termText name path []) < fuel)%nat ->
             Parse fuel (LPAREN :: termText name path []) =
             Some (Some {| Terms := [{| Term_Operator := op;
                                        Term_Path := path;
                                        Term_Values := [] |}] |}, None)).
  { intros name op path fuel Hin Hop Hne Hp Hf.
    apply (Parse_any_budget _ _ (S (length path + 0))); [|exact Hf].
    apply Parse_single_term; try assumption;
      [apply segments_written; exact Hp|constructor|
       unfold gostring, rune; simpl; lia]. }
  split; [|split].
  - intros Lexer scanner fuel l l1 close Hf Hs.
    unfold bind at 1, setLexerMode. cbn [lexer token].
    apply parseOptionalValues_none with (t1 := close); assumption.
  - exact Hgen.
  - intros fuel Hf.
    apply (Hgen (runes "eq") Eq [runes "a"] fuel); try assumption.
    + unfold operatorNames. simpl. tauto.
    + reflexivity.
    + discriminate.
    + repeat constructor.
Qed.

(** C8: for every label of the switch of [parseOperator] and every list of
    values, however long, the text of the term with these values as quoted
    strings is parsed into one term that carries these values in their
    order. *)
Theorem Parse_term_with_any_values :
  forall (name : gostring) (op : Operator) (path values : list gostring)
         (fuel : nat),
    List.In name operatorNames ->
    operatorNamed name = Some op ->
    path <> [] ->
    Forall (fun s => segmentFrom false s = true) path ->
    Forall (fun w => Forall (fun r => r <> NUL) w) values ->
    (length (LPAREN :: termText name path values) < fuel)%nat ->
    Parse fuel (LPAREN :: termText name path values) =
    Some (Some {| Terms := [{| Term_Operator := op; Term_Path := path;
                               Term_Values := values |}] |}, None).
Proof.
  intros name op path values fuel Hin Hop Hne Hp Hv Hf.
  apply (Parse_any_budget _ _ (S (length path + length values)));
    [|exact Hf].
  apply Parse_single_term; try assumption;
    [apply segments_written; exact Hp|unfold gostring, rune; lia].
Qed.


End FilterParser.



(** ** Runs on concrete texts *)

(** The scenarios S1 to S10 of the specification, over the scanner of
    package [filter] and the serializer as they are modelled: what each text
    is parsed into and, for S1 to S7, that the expression is written back as
    the text. *)
Lemma Parse_scenarios :
  let term o p v :=
    {| filter.Term_Operator := o;
       filter.Term_Path := map runes p;
       filter.Term_Values := map runes v |} in
  let parsed text terms :=
    ParseLatin1 40 (runes text) =
      Some (Some {| filter.Terms := terms |}, None) /\
    search.Selector_String {| filter.Terms := terms |} = runes text in
  let fails text e := ParseLatin1 40 (runes text) = Some (None, Some e) in
  parsed "(eq,myattr,'myvalue')" [term filter.Eq ["myattr"] ["myvalue"]] /\
  parsed "(eq,my~0attr,'v')" [term filter.Eq ["my~attr"] ["v"]] /\
  parsed "(eq,my~1attr,'v')" [term filter.Eq ["my/attr"] ["v"]] /\
  parsed "(eq,my~battr,'v')" [term filter.Eq ["my@attr"] ["v"]] /\
  parsed "(eq,mydict/@key,'v')" [term filter.Eq ["mydict"; "@key"] ["v"]] /\
  parsed "(eq,a,'x');(neq,b,'y')"
    [term filter.Eq ["a"] ["x"]; term filter.Neq ["b"] ["y"]] /\
  parsed "(in,a,'x','y')" [term filter.In ["a"] ["x"; "y"]] /\
  fails "(foo,a,'x')" (filter.errUnknownOperator (runes "foo")) /\
  fails "(eq,a,'un" filter_lexer.errUnterminatedString /\
  fails "(eq,a~q,'x')" (filter_lexer.errUnknownEscape 113).
Proof. repeat split; vm_compute; reflexivity. Qed.

Lemma Parse_terms_and_paths_nonempty_witness :
  let expr :=
    {| filter.Terms :=
         [{| filter.Term_Operator := filter.Eq;
             filter.Term_Path := [runes "a"];
             filter.Term_Values := [runes "x"] |}] |} in
  filter.Terms expr <> [] /\
  Forall (fun t => filter.Term_Path t <> []) (filter.Terms expr).
Proof.
  apply (@Parse_terms_and_paths_nonempty _
           (filter_lexer.scanner (U := Latin1Only)) Latin1Only
           11%nat (runes "(eq,a,'x')")).
  vm_compute. reflexivity.
Defined.

Lemma Parse_returns_expr_or_error_witness :
  exists r,
    ParseLatin1 11 (runes "(eq,a,'x')") = Some r /\
    ((exists expr, r = (Some expr, None)) \/
     (exists err, r = (None, Some err))).
Proof.
  apply (proj2 (@Parse_returns_expr_or_error Latin1Only)).
  simpl. lia.
Defined.

Lemma Parse_term_without_values_witness :
  ParseLatin1 8 (runes "(eq,a,)") =
  Some (Some {| filter.Terms :=
                  [{| filter.Term_Operator := filter.Eq;
                      filter.Term_Path := [runes "a"];
                      filter.Term_Values := [] |}] |}, None).
Proof.
  apply (proj2 (proj2 (@Parse_term_without_values Latin1Only))).
  simpl. lia.
Defined.

Lemma Parse_term_with_any_values_witness :
  ParseLatin1 15 (runes "(in,a,'x','y')") =
  Some (Some {| filter.Terms :=
                  [{| filter.Term_Operator := filter.In;
                      filter.Term_Path := [runes "a"];
                      filter.Term_Values := [runes "x"; runes "y"] |}] |},
        None).
Proof.
  apply (@Parse_term_with_any_values Latin1Only (runes "in") filter.In
           [runes "a"] [runes "x"; runes "y"] 15%nat).
  - simpl. tauto.
  - reflexivity.
  - discriminate.
  - repeat constructor.
  - repeat constructor; discriminate.
  - simpl. lia.
Defined.


(** The table of [internal/search/selector_test.go]: the serializer gives the
    expected text for each of its entries. *)
Lemma Selector_String_test_table :
  let term o p v :=
    {| filter.Term_Operator := o;
       filter.Term_Path := map runes p;
       filter.Term_Values := map runes v |} in
  let text terms := search.Selector_String {| filter.Terms := terms |} in
  text [term filter.Eq ["myattr"] ["myvalue"]] =
    runes "(eq,myattr,'myvalue')" /\
  text [term filter.Eq ["my~attr"] ["myvalue"]] =
    runes "(eq,my~0attr,'myvalue')" /\
  text [term filter.Eq ["my/attr"] ["myvalue"]] =
    runes "(eq,my~1attr,'myvalue')" /\
  text [term filter.Eq ["my@attr"] ["myvalue"]] =
    runes "(eq,my~battr,'myvalue')" /\
  text [term filter.Eq ["mydict"; "@key"] ["myvalue"]] =
    runes "(eq,mydict/@key,'myvalue')" /\
  text [term filter.Eq ["myattr"] ["myvalue"];
        term filter.Neq ["yourattr"] ["yourvalue"]] =
    runes "(eq,myattr,'myvalue');(neq,yourattr,'yourvalue')" /\
  text [term filter.Eq ["myattr"; "yourattr"] ["yourvalue"]] =
    runes "(eq,myattr/yourattr,'yourvalue')" /\
  text [term filter.In ["myattr"] ["myvalue"; "yourvalue"]] =
    runes "(in,myattr,'myvalue','yourvalue')".
Proof. repeat split; reflexivity. Qed.

(** * Further properties of the code *)

(** ** [selector.FetchToken]: termination, consumption of the input *)

Section SelectorTokens.
Context {U : UnicodeTables}.
Import selector.

Lemma selector_fetchLoop_shortens :
  forall fuel l state lexeme,
    (length (unread l) < fuel)%nat ->
    exists res l',
      fetchLoop fuel l state lexeme = Some (res, l') /\
      (length (unread l') <= length (unread l))%nat /\
      (state = S0 -> forall tok, res = Token tok ->
         Symbol tok <> exprSymbolEnd ->
         (length (unread l') < length (unread l))%nat).
Proof.
  induction fuel as [|fuel IH]; intros [[p lr]] state lexeme Hlen;
    unfold unread in *; simpl in *; [lia|].
  unfold readRune, ReadRune; simpl.
  destruct p as [|r rest]; simpl in *.
  - destruct state; rewrite ?IsSpace_NUL, ?IsLetter_NUL, ?IsDigit_NUL; simpl;
      do 2 eexists; (split; [reflexivity|]); simpl; (split; [lia|]);
      intros Hs tok Ht Hne; inv Ht; try discriminate; simpl in Hne;
      congruence.
  - destruct state; repeat split_if;
      try (match goal with
           | |- context [fetchLoop fuel ?l1 ?st ?lx] =>
               destruct (IH l1 st lx) as (res & l' & Hf & Hle & _);
               [simpl; lia|]; rewrite Hf
           end;
           do 2 eexists; (split; [reflexivity|]); simpl in *;
           split; [lia | intros; lia]);
      do 2 eexists; (split; [reflexivity|]); simpl;
      (split; [lia | intros; try discriminate; lia]).
Qed.

(** What has been read is a prefix of the input, and what is left is the
    rest of it. *)
Lemma selector_fetchLoop_suffix :
  forall fuel l state lexeme res l',
    fetchLoop fuel l state lexeme = Some (res, l') ->
    exists consumed, unread l = consumed ++ unread l'.
Proof.
  induction fuel as [|fuel IH]; intros [[p lr]] state lexeme res l' H;
    unfold unread in *; simpl in *; [discriminate|].
  unfold readRune, ReadRune in H; simpl in H.
  destruct p as [|r rest]; simpl in *.
  - destruct state; rewrite ?IsSpace_NUL, ?IsLetter_NUL, ?IsDigit_NUL in H;
      simpl in H; inv H; exists []; reflexivity.
  - destruct state;
      repeat match type of H with
             | context [if ?c then _ else _] => destruct c eqn:?
             end;
      try (apply IH in H; destruct H as [consumed Hc]; simpl in Hc;
           exists (r :: consumed); simpl; rewrite Hc; reflexivity);
      inv H; simpl;
      first [exists [r]; reflexivity | exists []; reflexivity].
Qed.

(** X1: [FetchToken] returns on every lexer. What it has read is a prefix
    of the input that was left and the lexer keeps the rest; a token other
    than the end token has read at least one rune. *)
Theorem selector_FetchToken_reads_a_prefix :
  forall l : exprLexer,
    exists res l' consumed,
      FetchToken l = Some (res, l') /\
      unread l = consumed ++ unread l' /\
      (forall tok, res = Token tok -> Symbol tok <> exprSymbolEnd ->
         consumed <> []).
Proof.
  intros l.
  destruct (selector_fetchLoop_shortens (S (length (unread l))) l S0 [])
    as (res & l' & Hf & Hle & Hlt); [lia|].
  destruct (selector_fetchLoop_suffix _ _ _ _ _ _ Hf) as [consumed Hc].
  exists res, l', consumed. split; [exact Hf|]. split; [exact Hc|].
  intros tok Ht Hne Hnil. subst consumed. simpl in Hc.
  specialize (Hlt eq_refl tok Ht Hne). rewrite Hc in Hlt. lia.
Qed.

Lemma selector_FetchToken_shortens :
  forall l,
    exists res l',
      FetchToken l = Some (res, l') /\
      (endsTokens res \/ (length (unread l') < length (unread l))%nat).
Proof.
  intros l.
  destruct (selector_fetchLoop_shortens (S (length (unread l))) l S0 [])
    as (res & l' & Hf & Hle & Hlt); [lia|].
  exists res, l'. split; [exact Hf|].
  destruct res as [tok|e]; [|left; exact I].
  destruct (Symbol tok) eqn:Hs; try (left; exact Hs);
    right; apply (Hlt eq_refl tok eq_refl); congruence.
Qed.

(** X2: the tokens of a source are finitely many: from any lexer, after at
    most as many calls as there are runes left, [FetchToken] returns the end
    token or an error. *)
Theorem selector_tokens_end :
  forall l : exprLexer,
    exists (n : nat) (l1 l2 : exprLexer) (res : fetched),
      (n <= length (unread l))%nat /\
      afterCalls n l = Some l1 /\
      FetchToken l1 = Some (res, l2) /\
      endsTokens res.
Proof.
  intros l. remember (length (unread l)) as k eqn:Hk.
  revert l Hk. induction k as [k IH] using lt_wf_ind. intros l Hk.
  destruct (selector_FetchToken_shortens l) as (res & l' & Hf & [He|Hlt]).
  - exists 0%nat, l, l', res. repeat split; [lia|exact Hf|exact He].
  - destruct (IH (length (unread l')) ltac:(lia) l' eq_refl)
      as (n & l1 & l2 & res' & Hn & Ha & Hf' & He').
    exists (S n), l1, l2, res'. repeat split; [lia| |exact Hf'|exact He'].
    cbn [afterCalls]. rewrite Hf. exact Ha.
Qed.

(** ** [selector.FetchToken]: white space and rejected runes *)

Lemma selector_fetchLoop_forgets_lastRead :
  forall fuel p last last' state lexeme,
    fetchLoop fuel (selectorLexerAt p last) state lexeme =
    fetchLoop fuel (selectorLexerAt p last') state lexeme.
Proof. intros [|fuel] [|r p] last last' state lexeme; reflexivity. Qed.

Lemma selector_FetchToken_skips :
  forall ws p last last',
    Forall (fun r => IsSpace r = true) ws ->
    FetchToken (selectorLexerAt (ws ++ p) last) =
    FetchToken (selectorLexerAt p last').
Proof.
  induction ws as [|w ws IH]; intros p last last' Hws.
  - apply selector_fetchLoop_forgets_lastRead.
  - inv Hws. rewrite <- (IH p (Some w) last' H2).
    unfold FetchToken. simpl. rewrite H1. reflexivity.
Qed.

(** X3: white space before a token is skipped: [FetchToken] returns the
    same token or error, and leaves the same lexer, as without it. *)
Theorem selector_FetchToken_skips_space :
  forall (ws p : gostring) (last last' : option rune),
    Forall (fun r => IsSpace r = true) ws ->
    FetchToken (selectorLexerAt (ws ++ p) last) =
    FetchToken (selectorLexerAt p last').
Proof. exact selector_FetchToken_skips. Qed.

(** X4: a rune for which state [S0] has no case (a digit, a parenthesis, a
    semicolon, a quote, ...) met where a token begins, after any white space,
    is answered with the error for an unexpected character, which names it,
    and has been read. *)
Theorem selector_FetchToken_rejects :
  forall (ws rest : gostring) (r : rune) (last : option rune),
    Forall (fun w => IsSpace w = true) ws ->
    rejectedInS0 r = true ->
    FetchToken (selectorLexerAt (ws ++ r :: rest) last) =
    Some (Fault (errUnexpectedCharacter r), selectorLexerAt rest (Some r)).
Proof.
  intros ws rest r last Hws Hr.
  rewrite (selector_FetchToken_skips ws (r :: rest) last None Hws).
  unfold rejectedInS0 in Hr.
  repeat (apply andb_true_iff in Hr; destruct Hr as [Hr ?]).
  repeat match goal with
         | H : negb _ = true |- _ => apply negb_true_iff in H
         end.
  unfold FetchToken. simpl.
  repeat match goal with
         | H : _ = false |- _ => rewrite H; clear H
         end.
  reflexivity.
Qed.

End SelectorTokens.

(** ** [selector.FetchToken]: the texts of identifiers, the errors *)

Section SelectorIdentifiers.
Context {U : UnicodeTables}.
Import selector.

Lemma selector_fetchLoop_scanned :
  forall fuel l state lexeme tok l',
    fetchLoop fuel l state lexeme = Some (Token tok, l') ->
    Symbol tok = exprSymbolIdentifier ->
    selectorLexemeBegins state lexeme ->
    segmentFrom false (Text tok) = true.
Proof.
  induction fuel as [|fuel IH]; intros l state lexeme tok l' H Hsym Hinv;
    simpl in H; [discriminate|].
  destruct (readRune l) as [r l1].
  destruct state; simpl in Hinv;
    repeat match type of H with
           | context [if ?c then _ else _] => destruct c eqn:?
           end;
    try (inv H; discriminate Hsym);
    try discriminate.
  - eapply IH; [exact H|exact Hsym|]. exact Hinv.
  - eapply IH; [exact H|exact Hsym|]. simpl. intros suffix Hs.
    rewrite <- app_assoc. apply Hinv. simpl.
    rewrite (starts_not_isEscaped r Heqb0).
    unfold startsIdentifier. rewrite Heqb, Heqb0. exact Hs.
  - eapply IH; [exact H|exact Hsym|]. simpl. intros suffix e He Hs.
    apply Hinv. simpl. rewrite He. exact Hs.
  - eapply IH; [exact H|exact Hsym|]. simpl. intros suffix Hs.
    rewrite <- app_assoc. apply Hinv. simpl.
    unfold continuesIdentifier. rewrite Heqb. exact Hs.
  - eapply IH; [exact H|exact Hsym|]. simpl. intros suffix e He Hs.
    apply Hinv. simpl. rewrite (isEscaped_not_continues e He), He. exact Hs.
  - inv H. simpl. rewrite <- (app_nil_r lexeme). apply Hinv. reflexivity.
  - eapply IH; [exact H|exact Hsym|]. simpl. intros suffix Hs.
    rewrite <- app_assoc. apply Hinv; [reflexivity|exact Hs].
  - eapply IH; [exact H|exact Hsym|]. simpl. intros suffix Hs.
    rewrite <- app_assoc. apply Hinv; [reflexivity|exact Hs].
  - eapply IH; [exact H|exact Hsym|]. simpl. intros suffix Hs.
    rewrite <- app_assoc. apply Hinv; [reflexivity|exact Hs].
Qed.

Lemma starts_continues :
  forall r, startsIdentifier r = true -> continuesIdentifier r = true.
Proof.
  intros r Hst. unfold startsIdentifier in Hst.
  apply andb_true_iff in Hst. destruct Hst as [_ Hl].
  unfold continuesIdentifier.
  apply orb_true_iff in Hl. destruct Hl as [Hl|Hl]; rewrite Hl;
    rewrite ?orb_true_r; reflexivity.
Qed.

Lemma segmentFrom_runes :
  forall s inside,
    segmentFrom inside s = true ->
    Forall (fun r => continuesIdentifier r || isEscaped r = true) s.
Proof.
  induction s as [|r s IH]; intros inside H; [constructor|].
  simpl in H. destruct inside.
  - destruct (continuesIdentifier r) eqn:Hc.
    + constructor; [rewrite Hc; reflexivity|]. apply (IH true H).
    + destruct (isEscaped r) eqn:He; [|discriminate].
      constructor; [rewrite Hc, He; reflexivity|]. apply (IH false H).
  - destruct (isEscaped r) eqn:He.
    + constructor; [rewrite He; apply orb_true_r|]. apply (IH false H).
    + destruct (startsIdentifier r) eqn:Hst; [|discriminate].
      constructor; [|apply (IH true H)].
      rewrite (starts_continues r Hst). reflexivity.
Qed.

Lemma segmentFrom_last :
  forall s inside,
    segmentFrom inside s = true -> s <> [] ->
    continuesIdentifier (last s NUL) = true.
Proof.
  induction s as [|r s IH]; intros inside H Hne; [contradiction|].
  destruct s as [|r' s].
  - simpl in *. destruct inside.
    + destruct (continuesIdentifier r); [reflexivity|].
      destruct (isEscaped r); discriminate.
    + destruct (isEscaped r); [discriminate|].
      destruct (startsIdentifier r) eqn:Hst; [|discriminate].
      apply starts_continues. exact Hst.
  - change (last (r :: r' :: s) NUL) with (last (r' :: s) NUL).
    cbn [segmentFrom] in H. destruct inside.
    + destruct (continuesIdentifier r).
      * apply (IH true H). discriminate.
      * destruct (isEscaped r); [|discriminate].
        apply (IH false H). discriminate.
    + destruct (isEscaped r).
      * apply (IH false H). discriminate.
      * destruct (startsIdentifier r); [|discriminate].
        apply (IH true H). discriminate.
Qed.

(** X5: the text of an identifier token is not empty, is made of letters,
    digits, underscores and the three runes that escape sequences stand for,
    and ends with a letter, a digit or an underscore. *)
Theorem selector_identifier_text :
  forall (l l' : exprLexer) (tok : exprToken),
    FetchToken l = Some (Token tok, l') ->
    Symbol tok = exprSymbolIdentifier ->
    Text tok <> [] /\
    Forall (fun r => continuesIdentifier r || isEscaped r = true) (Text tok) /\
    continuesIdentifier (last (Text tok) NUL) = true /\
    segmentFrom false (Text tok) = true.
Proof.
  intros l l' tok H Hsym.
  assert (Hseg : segmentFrom false (Text tok) = true).
  { eapply selector_fetchLoop_scanned; [exact H|exact Hsym|].
    simpl. intros suffix Hs. exact Hs. }
  assert (Hne : Text tok <> []).
  { intros E. rewrite E in Hseg. discriminate Hseg. }
  repeat split; try assumption.
  - eapply segmentFrom_runes. exact Hseg.
  - eapply segmentFrom_last; eassumption.
Qed.

Lemma continues_tildeEscape :
  forall r, continuesIdentifier r = true -> tildeEscape r = [r].
Proof.
  intros r H. unfold tildeEscape.
  repeat match goal with
         | |- context [?a =? ?b] =>
             destruct (Z.eqb_spec a b) as [->|]; [discriminate H|]
         end.
  reflexivity.
Qed.

Lemma starts_tildeEscape :
  forall r, (IsLetter r || (r =? UNDERSCORE)) = true -> tildeEscape r = [r].
Proof.
  intros r H. unfold tildeEscape.
  repeat match goal with
         | |- context [?a =? ?b] =>
             destruct (Z.eqb_spec a b) as [->|]; [discriminate H|]
         end.
  reflexivity.
Qed.

Lemma selector_fetchLoop_segment :
  forall s (inside : bool) lexeme rest last fuel,
    segmentFrom inside s = true ->
    stopsIdentifier rest = true ->
    (length (flat_map tildeEscape s) < fuel)%nat ->
    fetchLoop fuel (selectorLexerAt (flat_map tildeEscape s ++ rest) last)
      (if inside then S1 else S0) lexeme =
    Some (Token {| Symbol := exprSymbolIdentifier; Text := lexeme ++ s |},
          selectorLexerAt rest None).
Proof.
  induction s as [|r s IH]; intros inside lexeme rest last fuel Hs Hr Hf.
  - simpl in Hs. subst inside. destruct fuel as [|fuel]; [simpl in Hf; lia|].
    rewrite app_nil_r. destruct rest as [|c rest]; [reflexivity|].
    simpl in Hr. apply andb_true_iff in Hr. destruct Hr as [Hc Ht].
    apply negb_true_iff in Hc, Ht. unfold continuesIdentifier in Hc.
    simpl. rewrite Hc, Ht. reflexivity.
  - simpl in Hs. destruct inside.
    + destruct (continuesIdentifier r) eqn:Hc.
      * simpl in Hf |- *. rewrite (continues_tildeEscape r Hc) in Hf |- *.
        destruct fuel as [|fuel]; [simpl in Hf; lia|].
        unfold continuesIdentifier in Hc. simpl. rewrite Hc.
        change (lexeme ++ r :: s) with (lexeme ++ [r] ++ s).
        rewrite app_assoc.
        apply (IH true); [assumption|assumption|simpl in Hf; lia].
      * destruct (isEscaped r) eqn:He; [|discriminate].
        change (lexeme ++ r :: s) with (lexeme ++ [r] ++ s).
        rewrite app_assoc.
        destruct (isEscaped_cases r He) as [-> | [-> | ->]];
          (destruct fuel as [|[|fuel]]; [simpl in Hf; lia|simpl in Hf; lia|]);
          simpl in Hf |- *;
          (apply (IH false); [assumption|assumption|lia]).
    + destruct (isEscaped r) eqn:He.
      * change (lexeme ++ r :: s) with (lexeme ++ [r] ++ s).
        rewrite app_assoc.
        destruct (isEscaped_cases r He) as [-> | [-> | ->]];
          (destruct fuel as [|[|fuel]]; [simpl in Hf; lia|simpl in Hf; lia|]);
          simpl in Hf |- *;
          (apply (IH false); [assumption|assumption|lia]).
      * destruct (startsIdentifier r) eqn:Hst; [|discriminate].
        unfold startsIdentifier in Hst. apply andb_true_iff in Hst.
        destruct Hst as [Hsp Hl]. apply negb_true_iff in Hsp.
        simpl in Hf |- *. rewrite (starts_tildeEscape r Hl) in Hf |- *.
        destruct fuel as [|fuel]; [simpl in Hf; lia|].
        simpl. rewrite Hsp, Hl.
        change (lexeme ++ r :: s) with (lexeme ++ [r] ++ s).
        rewrite app_assoc.
        apply (IH true); [assumption|assumption|simpl in Hf; lia].
Qed.

(** X6: the texts of the shape [segmentFrom false] are read back from their
    escaped form. The shape: every rune is a letter, a digit, an underscore,
    a tilde, a slash or a comma; the first rune, and every rune that comes
    after a tilde, a slash or a comma, is not a digit (it is a letter that is
    not white space, an underscore, or again a tilde, a slash or a comma);
    and the last rune is a letter, a digit or an underscore. It is the shape
    that every identifier token has (X5). Such a text, written with [~0] for
    a tilde, [~1] for a slash and [~a] for a comma, and followed by the end
    of the input or by a rune that is neither a tilde nor a letter, a digit
    or an underscore, is returned as one identifier token, escapes decoded,
    and the lexer is left before that rune. A text such as [v/2], where a
    digit follows an escaped rune, is outside the shape: its escaped form
    [v~12] is answered with the error for the unexpected character [2]. *)
Theorem selector_FetchToken_decodes :
  forall (s rest : gostring) (last : option rune),
    segmentFrom false s = true ->
    stopsIdentifier rest = true ->
    FetchToken (selectorLexerAt (flat_map tildeEscape s ++ rest) last) =
    Some (Token {| Symbol := exprSymbolIdentifier; Text := s |},
          selectorLexerAt rest None).
Proof.
  intros s rest last Hs Hr. unfold FetchToken.
  cbn [selectorLexerAt buffer pending].
  apply (selector_fetchLoop_segment s false [] rest); [assumption|assumption|].
  rewrite length_app. lia.
Qed.

Lemma selector_fetchLoop_fault :
  forall fuel l state lexeme e l',
    fetchLoop fuel l state lexeme = Some (Fault e, l') ->
    exists r,
      ((e = errUnexpectedCharacter r /\ rejectedInS0 r = true) \/
       (e = errUnknownEscape r /\
        r <> DIGIT0 /\ r <> DIGIT1 /\ r <> LOWER_A)) /\
      ((exists consumed, unread l = consumed ++ r :: unread l') \/
       (r = NUL /\ unread l' = [])).
Proof.
  induction fuel as [|fuel IH]; intros [[p lr]] state lexeme e l' H;
    unfold unread in *; simpl in *; [discriminate|].
  unfold readRune, ReadRune in H; simpl in H.
  destruct p as [|r rest]; simpl in *.
  - destruct state; rewrite ?IsSpace_NUL, ?IsLetter_NUL, ?IsDigit_NUL in H;
      simpl in H; inv H.
    exists NUL. split; [right|right; auto].
    repeat split; discriminate.
  - destruct state;
      repeat match type of H with
             | context [if ?c then _ else _] => destruct c eqn:?
             end;
      try (apply IH in H; destruct H as (r0 & Hkind & [[consumed Hc]|Hend]);
           simpl in *; exists r0; (split; [exact Hkind|]);
           [left; exists (r :: consumed); rewrite Hc; reflexivity
           |right; exact Hend]);
      inv H; exists r; (split; [|left; exists []; reflexivity]).
    + left. split; [reflexivity|]. unfold rejectedInS0.
      repeat match goal with
             | H : _ = false |- _ => rewrite H; clear H
             end.
      reflexivity.
    + right. split; [reflexivity|].
      repeat split; apply Z.eqb_neq; assumption.
Qed.

(** X7: an error of [FetchToken] is the error for an unexpected character,
    for a rune that state [S0] has no case for, or the error for an unknown
    escape sequence, for a rune other than [0], [1] and [a]; the rune it
    names is the last one read, the lexer is left behind it, or it is the
    rune 0 that stands for the end of the input after a tilde. *)
Theorem selector_FetchToken_errors :
  forall (l l' : exprLexer) (e : error),
    FetchToken l = Some (Fault e, l') ->
    exists r,
      ((e = errUnexpectedCharacter r /\ rejectedInS0 r = true) \/
       (e = errUnknownEscape r /\
        r <> DIGIT0 /\ r <> DIGIT1 /\ r <> LOWER_A)) /\
      ((exists consumed, unread l = consumed ++ r :: unread l') \/
       (r = NUL /\ unread l' = [])).
Proof.
  intros l l' e H. eapply selector_fetchLoop_fault. exact H.
Qed.

End SelectorIdentifiers.

(** ** The parser: what it returns, over any scanner *)

Section ParserResults.
Context {Lexer : Type} {scanner : filter.Scanner Lexer} {U : UnicodeTables}.
Import filter.

Ltac bind_ret H :=
  let a := fresh "a" in
  let t1 := fresh "t" in
  let H1 := fresh "H" in
  apply bind_Return in H; destruct H as (a & t1 & H1 & H);
  repeat match goal with u : unit |- _ => destruct u end.

Lemma operatorNamed_never_Lte :
  forall name op, operatorNamed name = Some op -> op <> Lte.
Proof.
  intros name op H. unfold operatorNamed in H.
  repeat match type of H with
         | context [if ?c then _ else _] => destruct c; [inv H; discriminate|]
         end.
  discriminate.
Qed.

(** X8: no term of an expression that [Parse] returns has the operator
    [Lte]: no case of the switch of [parseOperator] returns it. *)
Theorem Parse_never_returns_Lte :
  forall (fuel : nat) (text : gostring) (expr : Expr),
    Parse fuel text = Some (Some expr, None) ->
    Forall (fun t => Term_Operator t <> Lte) (Terms expr).
Proof.
  intros fuel text expr H.
  destruct (Parse_made_of (fun _ => True) (fun _ _ _ _ => I) _ _ _ H)
    as (_ & Hall).
  eapply Forall_impl; [|exact Hall].
  intros t ([name Hop] & _). eapply operatorNamed_never_Lte. exact Hop.
Qed.

(** X9: the segments and the values of an expression that [Parse] returns
    are texts of tokens that the scanner returned, as the scanner returned
    them: every segment is the text of an identifier token and every value
    the text of a string token. *)
Theorem Parse_keeps_token_texts :
  forall (fuel : nat) (text : gostring) (expr : Expr),
    Parse fuel text = Some (Some expr, None) ->
    Forall
      (fun t =>
         Forall (fun s => fetchedToken {| Symbol := exprSymbolIdentifier;
                                          Text := s |}) (Term_Path t) /\
         Forall (fun v => fetchedToken {| Symbol := exprSymbolString;
                                          Text := v |}) (Term_Values t))
      (Terms expr).
Proof.
  intros fuel text expr H.
  assert (Hgood : forall (l l' : Lexer) tok,
             FetchToken l = Some (Token tok, l') -> fetchedToken tok).
  { intros l l' tok Hf. exists l, l'. exact Hf. }
  destruct (Parse_made_of fetchedToken Hgood _ _ _ H) as (_ & Hall).
  eapply Forall_impl; [|exact Hall].
  intros t (_ & _ & Hp & Hv). split; assumption.
Qed.

(** *** The end of the input *)

Lemma checkToken_holds :
  forall symbol (t : parseTask Lexer) b t',
    checkToken symbol t = Some (Return b t') ->
    exists tok,
      token t' = Some tok /\ b = exprSymbol_eqb (Symbol tok) symbol /\
      ((token t = Some tok /\ t' = t) \/
       (token t = None /\ FetchToken (lexer t) = Some (Token tok, lexer t'))).
Proof.
  intros symbol t b t' H.
  unfold checkToken, bind, ensureToken, theToken, ret, fetchToken in H.
  destruct (token t) as [tok|] eqn:Ht.
  - rewrite Ht in H. inv H. exists tok. auto.
  - destruct (FetchToken (lexer t)) as [[[tok|e] l]|] eqn:Hf;
      try discriminate.
    simpl in H. inv H. exists tok. simpl. auto.
Qed.

Lemma consumeToken_keeps_lexer :
  forall symbol (t : parseTask Lexer) tok t',
    token t = Some tok ->
    consumeToken symbol t = Some (Return tt t') ->
    lexer t' = lexer t.
Proof.
  intros symbol t tok t' Ht H.
  unfold consumeToken, bind, ensureToken, theToken in H.
  rewrite Ht in H. cbn beta iota in H. rewrite Ht in H. cbn beta iota in H.
  destruct (negb _); [discriminate|]. inv H. reflexivity.
Qed.

Lemma parseValuesFrom_holds :
  forall fuel values (t : parseTask Lexer) vs t',
    parseValuesFrom fuel values t = Some (Return vs t') ->
    token t' <> None.
Proof.
  induction fuel as [|fuel IH]; intros values t vs t' H; simpl in H;
    [discriminate|].
  bind_ret H. bind_ret H. destruct a0.
  - bind_ret H. eapply IH. exact H.
  - bind_ret H. destruct a0.
    + unfold ret in H. inv H.
      destruct (checkToken_holds _ _ _ _ H2) as (tok & Ht & _). congruence.
    + bind_ret H. discriminate.
Qed.

Lemma parseOptionalValues_holds :
  forall fuel (t : parseTask Lexer) vs t',
    parseOptionalValues fuel t = Some (Return vs t') ->
    token t' <> None.
Proof.
  intros fuel t vs t' H. unfold parseOptionalValues in H.
  bind_ret H. destruct a.
  - unfold ret in H. inv H.
    destruct (checkToken_holds _ _ _ _ H0) as (tok & Ht & _). congruence.
  - bind_ret H. destruct a.
    + eapply parseValuesFrom_holds. exact H.
    + bind_ret H. discriminate.
Qed.

(** When [parseTerm] returns, the scanner has been set to the default mode
    and no token is held. *)
Lemma parseTerm_leaves_default_mode :
  forall fuel (t : parseTask Lexer) term t',
    parseTerm fuel t = Some (Return term t') ->
    exists l, lexer t' = SetMode exprDefaultMode l /\ token t' = None.
Proof.
  intros fuel t term t' H. unfold parseTerm in H.
  bind_ret H. bind_ret H. bind_ret H. bind_ret H. bind_ret H. bind_ret H.
  bind_ret H. apply parseOptionalValues_holds in H6.
  bind_ret H. unfold setLexerMode in H7. inv H7.
  bind_ret H. unfold ret in H. inv H.
  destruct (token t6) as [tok|] eqn:Ht; [|contradiction].
  exists (lexer t6). split.
  - exact (consumeToken_keeps_lexer exprSymbolRightParenthesis
             {| lexer := SetMode exprDefaultMode (lexer t6);
                token := Some tok |} tok t' eq_refl H7).
  - apply (consumeToken_releases _ _ _ H7).
Qed.

(** X10: when [parseExpr] returns an expression, the token it holds is the
    end token, and this token was fetched after the scanner had been set
    back to the default mode: an expression is returned only once the
    scanner has answered with the end token. *)
Theorem parseExpr_stops_at_End :
  forall (fuel budget : nat) (terms : list Term) (t t' : parseTask Lexer)
         (expr : Expr),
    parseExprFrom fuel budget terms t = Some (Return expr t') ->
    exists tok l,
      token t' = Some tok /\
      Symbol tok = exprSymbolEnd /\
      FetchToken (SetMode exprDefaultMode l) = Some (Token tok, lexer t').
Proof.
  induction fuel as [|fuel IH]; intros budget terms t t' expr H;
    simpl in H; [discriminate|].
  bind_ret H. bind_ret H. destruct a0.
  - bind_ret H. eapply IH. exact H.
  - bind_ret H. destruct a0.
    + unfold ret in H. inv H.
      destruct (parseTerm_leaves_default_mode _ _ _ _ H0) as (l & Hl & Hn).
      destruct (checkToken_holds _ _ _ _ H1)
        as (tok & Ht & _ & [[Hheld _]|[_ Hf]]); [congruence|].
      destruct (checkToken_holds _ _ _ _ H2)
        as (tok' & Ht' & Hb & [[_ ->]|[Hnone _]]); [|congruence].
      rewrite Ht in Ht'. inv Ht'.
      exists tok', l. split; [exact Ht|]. split.
      * apply exprSymbol_eqb_eq. symmetry. exact Hb.
      * rewrite <- Hl. exact Hf.
    + bind_ret H. discriminate.
Qed.

End ParserResults.

(** ** The parser: the errors it returns, over any scanner *)

Section ParserErrors.
Context {Lexer : Type} {scanner : filter.Scanner Lexer} {U : UnicodeTables}.
Import filter.

Lemma bind_Panic :
  forall A B (m : M A) (k : A -> M B) (t : parseTask Lexer) e,
    bind m k t = Some (Panic e) ->
    m t = Some (Panic e) \/
    exists a t1, m t = Some (Return a t1) /\ k a t1 = Some (Panic e).
Proof.
  intros A B m k t e H. unfold bind in H.
  destruct (m t) as [[a t1|e']|]; try discriminate.
  - right. eauto.
  - inv H. left. reflexivity.
Qed.

Ltac bind_pan H Hp a t1 Hr :=
  apply bind_Panic in H; destruct H as [Hp | (a & t1 & Hr & H)].

Lemma fetchToken_panics :
  forall (t : parseTask Lexer) e,
    fetchToken t = Some (Panic e) -> scannerFault e.
Proof.
  intros t e H. unfold fetchToken in H.
  destruct (FetchToken (lexer t)) as [[[tok|e'] l]|] eqn:Hf; inv H.
  exists (lexer t), l. exact Hf.
Qed.

Lemma ensureToken_panics :
  forall (t : parseTask Lexer) e,
    ensureToken t = Some (Panic e) -> scannerFault e.
Proof.
  intros t e H. unfold ensureToken in H.
  destruct (token t); [discriminate|]. eapply fetchToken_panics. exact H.
Qed.

Lemma theToken_after_ensureToken :
  forall (t t1 : parseTask Lexer) e,
    ensureToken t = Some (Return tt t1) ->
    theToken t1 = Some (Panic e) -> False.
Proof.
  intros t t1 e He Ht. apply ensureToken_sets_token in He.
  unfold theToken in Ht. destruct (token t1); [discriminate|]. congruence.
Qed.

Lemma currentToken_panics :
  forall (t : parseTask Lexer) e,
    currentToken t = Some (Panic e) -> scannerFault e.
Proof.
  intros t e H. unfold currentToken in H. bind_pan H Hp a t1 Hr.
  - eapply ensureToken_panics. exact Hp.
  - destruct a. exfalso. eapply theToken_after_ensureToken; eassumption.
Qed.

Lemma checkToken_panics :
  forall symbol (t : parseTask Lexer) e,
    checkToken symbol t = Some (Panic e) -> scannerFault e.
Proof.
  intros symbol t e H. unfold checkToken in H. bind_pan H Hp a t1 Hr.
  - eapply ensureToken_panics. exact Hp.
  - destruct a. bind_pan H Hp2 tok t2 Hr2.
    + exfalso. eapply theToken_after_ensureToken; eassumption.
    + discriminate.
Qed.

Lemma consumeToken_panics :
  forall symbol (t : parseTask Lexer) e,
    consumeToken symbol t = Some (Panic e) ->
    scannerFault e \/
    exists text, e = errUnexpectedToken text (expectedName symbol).
Proof.
  intros symbol t e H. unfold consumeToken in H. bind_pan H Hp a t1 Hr.
  - left. eapply ensureToken_panics. exact Hp.
  - destruct a. bind_pan H Hp2 tok t2 Hr2.
    + exfalso. eapply theToken_after_ensureToken; eassumption.
    + destruct (negb _); [|discriminate]. unfold panic in H. inv H.
      right. eauto.
Qed.

Lemma consumeToken_origin :
  forall symbol (t : parseTask Lexer) e,
    consumeToken symbol t = Some (Panic e) ->
    scannerFault e \/ parserMessage e.
Proof.
  intros symbol t e H.
  destruct (consumeToken_panics _ _ _ H) as [Hs|[text ->]];
    [left; exact Hs|].
  right. left. eauto.
Qed.

Lemma parseIdentifier_panics :
  forall (t : parseTask Lexer) e,
    parseIdentifier t = Some (Panic e) -> scannerFault e \/ parserMessage e.
Proof.
  intros t e H. unfold parseIdentifier in H. bind_pan H Hp tok t1 Hr.
  - left. eapply currentToken_panics. exact Hp.
  - bind_pan H Hp2 u t2 Hr2.
    + eapply consumeToken_origin. exact Hp2.
    + discriminate.
Qed.

Lemma parseValue_panics :
  forall (t : parseTask Lexer) e,
    parseValue t = Some (Panic e) -> scannerFault e \/ parserMessage e.
Proof.
  intros t e H. unfold parseValue in H. bind_pan H Hp tok t1 Hr.
  - left. eapply currentToken_panics. exact Hp.
  - bind_pan H Hp2 u t2 Hr2.
    + eapply consumeToken_origin. exact Hp2.
    + discriminate.
Qed.

Lemma parseOperator_panics :
  forall (t : parseTask Lexer) e,
    parseOperator t = Some (Panic e) -> scannerFault e \/ parserMessage e.
Proof.
  intros t e H. unfold parseOperator in H. bind_pan H Hp name t1 Hr.
  - eapply parseIdentifier_panics. exact Hp.
  - destruct (operatorNamed (strings_ToLower name)) eqn:Hop;
      [discriminate|].
    unfold panic in H. inv H. right. do 4 right. left. eauto.
Qed.

Lemma parsePathFrom_panics :
  forall fuel segments (t : parseTask Lexer) e,
    parsePathFrom fuel segments t = Some (Panic e) ->
    scannerFault e \/ parserMessage e.
Proof.
  induction fuel as [|fuel IH]; intros segments t e H; simpl in H;
    [discriminate|].
  bind_pan H Hp segment t1 Hr.
  - eapply parseIdentifier_panics. exact Hp.
  - bind_pan H Hp2 slash t2 Hr2.
    + left. eapply checkToken_panics. exact Hp2.
    + destruct slash.
      * bind_pan H Hp3 u t3 Hr3.
        -- left. eapply fetchToken_panics. exact Hp3.
        -- eapply IH. exact H.
      * bind_pan H Hp3 comma t3 Hr3.
        -- left. eapply checkToken_panics. exact Hp3.
        -- destruct comma; [discriminate|].
           bind_pan H Hp4 tok t4 Hr4.
           ++ left. eapply currentToken_panics. exact Hp4.
           ++ unfold panic in H. inv H. right. right. left. eauto.
Qed.

Lemma parseValuesFrom_panics :
  forall fuel values (t : parseTask Lexer) e,
    parseValuesFrom fuel values t = Some (Panic e) ->
    scannerFault e \/ parserMessage e.
Proof.
  induction fuel as [|fuel IH]; intros values t e H; simpl in H;
    [discriminate|].
  bind_pan H Hp v t1 Hr.
  - eapply parseValue_panics. exact Hp.
  - bind_pan H Hp2 comma t2 Hr2.
    + left. eapply checkToken_panics. exact Hp2.
    + destruct comma.
      * bind_pan H Hp3 u t3 Hr3.
        -- left. eapply fetchToken_panics. exact Hp3.
        -- eapply IH. exact H.
      * bind_pan H Hp3 close t3 Hr3.
        -- left. eapply checkToken_panics. exact Hp3.
        -- destruct close; [discriminate|].
           bind_pan H Hp4 tok t4 Hr4.
           ++ left. eapply currentToken_panics. exact Hp4.
           ++ unfold panic in H. inv H. right. do 3 right. left. eauto.
Qed.

Lemma parseOptionalValues_panics :
  forall fuel (t : parseTask Lexer) e,
    parseOptionalValues fuel t = Some (Panic e) ->
    scannerFault e \/ parserMessage e.
Proof.
  intros fuel t e H. unfold parseOptionalValues in H.
  bind_pan H Hp close t1 Hr.
  - left. eapply checkToken_panics. exact Hp.
  - destruct close; [discriminate|].
    bind_pan H Hp2 str t2 Hr2.
    + left. eapply checkToken_panics. exact Hp2.
    + destruct str.
      * eapply parseValuesFrom_panics. exact H.
      * bind_pan H Hp3 tok t3 Hr3.
        -- left. eapply currentToken_panics. exact Hp3.
        -- unfold panic in H. inv H. right. do 2 right. left. eauto.
Qed.

Lemma parseTerm_panics :
  forall fuel (t : parseTask Lexer) e,
    parseTerm fuel t = Some (Panic e) -> scannerFault e \/ parserMessage e.
Proof.
  intros fuel t e H. unfold parseTerm in H.
  bind_pan H Hp u1 t1 Hr1; [eapply consumeToken_origin; exact Hp|].
  bind_pan H Hp operator t2 Hr2; [eapply parseOperator_panics; exact Hp|].
  bind_pan H Hp u3 t3 Hr3; [eapply consumeToken_origin; exact Hp|].
  bind_pan H Hp path t4 Hr4; [eapply parsePathFrom_panics; exact Hp|].
  bind_pan H Hp u5 t5 Hr5; [eapply consumeToken_origin; exact Hp|].
  bind_pan H Hp u6 t6 Hr6; [discriminate|].
  bind_pan H Hp values t7 Hr7; [eapply parseOptionalValues_panics; exact Hp|].
  bind_pan H Hp u8 t8 Hr8; [discriminate|].
  bind_pan H Hp u9 t9 Hr9; [eapply consumeToken_origin; exact Hp|].
  discriminate.
Qed.

Lemma parseExprFrom_panics :
  forall fuel budget terms (t : parseTask Lexer) e,
    parseExprFrom fuel budget terms t = Some (Panic e) ->
    scannerFault e \/ parserMessage e.
Proof.
  induction fuel as [|fuel IH]; intros budget terms t e H; simpl in H;
    [discriminate|].
  bind_pan H Hp term t1 Hr.
  - eapply parseTerm_panics. exact Hp.
  - bind_pan H Hp2 semicolon t2 Hr2.
    + left. eapply checkToken_panics. exact Hp2.
    + destruct semicolon.
      * bind_pan H Hp3 u t3 Hr3.
        -- left. eapply fetchToken_panics. exact Hp3.
        -- eapply IH. exact H.
      * bind_pan H Hp3 fin t3 Hr3.
        -- left. eapply checkToken_panics. exact Hp3.
        -- destruct fin; [discriminate|].
           bind_pan H Hp4 tok t4 Hr4.
           ++ left. eapply currentToken_panics. exact Hp4.
           ++ unfold panic in H. inv H. right. do 5 right.
              exists tok. reflexivity.
Qed.

(** X11: an error that [Parse] returns is the error of the lexer builder,
    an error that [FetchToken] returned, passed on as it is, or one of the
    messages of the parser (an unexpected token or an unknown operator); a
    nil token is never dereferenced. *)
Theorem Parse_error_origin :
  forall (fuel : nat) (text : gostring) (e : error),
    Parse fuel text = Some (None, Some e) ->
    newLexerOver text = inr e \/ scannerFault e \/ parserMessage e.
Proof.
  intros fuel text e H. unfold Parse in H.
  destruct (newLexerOver text) as [l|e'] eqn:Hb.
  - right. destruct (parseExpr fuel _) as [[expr t'|e']|] eqn:Hp; inv H.
    unfold parseExpr in Hp. eapply parseExprFrom_panics. exact Hp.
  - inv H. left. reflexivity.
Qed.

(** *** Particular errors *)

(** X12: when the first token of the text is not a left parenthesis, [Parse]
    returns the error for an unexpected token, with the text of this token,
    while expecting a left parenthesis. *)
Theorem Parse_expects_left_parenthesis :
  forall (fuel : nat) (text : gostring) (l l' : Lexer) (tok : exprToken),
    newLexerOver text = inl l ->
    FetchToken l = Some (Token tok, l') ->
    Symbol tok <> exprSymbolLeftParenthesis ->
    Parse (S fuel) text =
    Some (None, Some (errUnexpectedToken (Text tok)
                        (runes "left parenthesis"))).
Proof.
  intros fuel text l l' tok Hb Hf Hs. unfold Parse. rewrite Hb.
  unfold parseExpr. cbn [parseExprFrom].
  unfold bind at 1, parseTerm, bind at 1, consumeToken, bind at 1,
    ensureToken, fetchToken.
  cbn [token lexer]. rewrite Hf. cbn beta iota.
  unfold bind at 1, theToken. cbn [token].
  destruct (exprSymbol_eqb (Symbol tok) exprSymbolLeftParenthesis) eqn:He.
  - apply exprSymbol_eqb_eq in He. contradiction.
  - reflexivity.
Qed.

Lemma parseTerm_expects_left_parenthesis :
  forall fuel (l : Lexer) tok,
    Symbol tok <> exprSymbolLeftParenthesis ->
    parseTerm fuel {| lexer := l; token := Some tok |} =
    Some (Panic (errUnexpectedToken (Text tok) (runes "left parenthesis"))).
Proof.
  intros fuel l tok Hs.
  unfold parseTerm, bind at 1, consumeToken, bind at 1, ensureToken.
  cbn [token]. unfold bind at 1, theToken. cbn [token].
  destruct (exprSymbol_eqb (Symbol tok) exprSymbolLeftParenthesis) eqn:He.
  - apply exprSymbol_eqb_eq in He. contradiction.
  - reflexivity.
Qed.

(** X13: a semicolon has to be followed by a term: when the first term of
    the text is followed by a semicolon and the token after the semicolon is
    not a left parenthesis (the end of the input, a second semicolon),
    [Parse] returns the error for this unexpected token. *)
Theorem Parse_expects_term_after_semicolon :
  forall (fuel : nat) (text : gostring) (l l1 l2 : Lexer) (term : Term)
         (t1 : parseTask Lexer) (semicolon tok : exprToken),
    newLexerOver text = inl l ->
    parseTerm (S (S fuel)) {| lexer := l; token := None |} =
      Some (Return term t1) ->
    FetchToken (lexer t1) = Some (Token semicolon, l1) ->
    Symbol semicolon = exprSymbolSemicolon ->
    FetchToken l1 = Some (Token tok, l2) ->
    Symbol tok <> exprSymbolLeftParenthesis ->
    Parse (S (S fuel)) text =
    Some (None, Some (errUnexpectedToken (Text tok)
                        (runes "left parenthesis"))).
Proof.
  intros fuel text l l1 l2 term t1 semicolon tok Hb Ht Hf1 Hs1 Hf2 Hs2.
  pose proof (consumeToken_releases exprSymbolRightParenthesis) as Hrel.
  assert (Hn : token t1 = None).
  { destruct (parseTerm_held (fun _ => True) (fun _ _ _ _ => I) _ _ _ _ Ht)
      as [_ Hn]. exact Hn. }
  destruct t1 as [l0 held]. simpl in Hn, Hf1. subst held.
  unfold Parse. rewrite Hb. unfold parseExpr.
  rewrite (parseExprFrom_more (S fuel) (S (S fuel)) [] _ term l0 l1 l2
             semicolon tok Ht Hf1 Hs1 Hf2).
  cbn [parseExprFrom]. unfold bind at 1.
  rewrite (parseTerm_expects_left_parenthesis _ l2 tok Hs2). reflexivity.
Qed.

Lemma operatorNamed_labels :
  forall s, operatorNamed s <> None <-> List.In s operatorNames.
Proof.
  intros s. split.
  - intros H. unfold operatorNamed in H. unfold operatorNames. simpl.
    repeat match type of H with
           | context [if eqString s ?label then _ else _] =>
               let E := fresh "E" in
               destruct (eqString s label) eqn:E;
               [apply eqString_eq in E; rewrite E; simpl; tauto|]
           end.
    contradiction.
  - intros H. unfold operatorNames in H. simpl in H.
    repeat (destruct H as [<-|H]; [discriminate|]). contradiction.
Qed.

(** X14: [parseOperator] accepts the names that, in lower case, are one of
    the ten labels of its switch, and no other: for any other name it panics
    with the error for an unknown operator, which has the name as it was
    written. *)
Theorem parseOperator_accepts_the_labels :
  forall (name : gostring) (l : Lexer),
    let held :=
      {| lexer := l;
         token := Some {| Symbol := exprSymbolIdentifier; Text := name |} |} in
    (List.In (strings_ToLower name) operatorNames ->
     exists op,
       parseOperator held = Some (Return op {| lexer := l; token := None |})) /\
    (~ List.In (strings_ToLower name) operatorNames ->
     parseOperator held = Some (Panic (errUnknownOperator name))).
Proof.
  intros name l held. split; intros H.
  - apply operatorNamed_labels in H.
    destruct (operatorNamed (strings_ToLower name)) as [op|] eqn:Hop;
      [|contradiction].
    exists op. unfold held, parseOperator.
    rewrite (bind_eval _ _ _ _ _ _ _ (parseIdentifier_held_token l name)).
    rewrite Hop. reflexivity.
  - assert (Hop : operatorNamed (strings_ToLower name) = None).
    { destruct (operatorNamed (strings_ToLower name)) eqn:Hop;
        [|reflexivity].
      exfalso. apply H. apply operatorNamed_labels. congruence. }
    unfold held, parseOperator.
    rewrite (bind_eval _ _ _ _ _ _ _ (parseIdentifier_held_token l name)).
    rewrite Hop. reflexivity.
Qed.

End ParserErrors.

(** ** [selector.FetchToken]: the tokens of a path *)

Section SelectorPaths.
Context {U : UnicodeTables}.
Import selector.

Lemma selector_FetchToken_segment :
  forall s rest last,
    segmentFrom false s = true ->
    stopsIdentifier rest = true ->
    FetchToken (selectorLexerAt (flat_map tildeEscape s ++ rest) last) =
    Some (Token {| Symbol := exprSymbolIdentifier; Text := s |},
          selectorLexerAt rest None).
Proof.
  intros s rest last Hs Hr. unfold FetchToken.
  cbn [selectorLexerAt buffer pending].
  apply (selector_fetchLoop_segment s false [] rest); [assumption|assumption|].
  rewrite length_app. lia.
Qed.

Lemma selector_FetchToken_slash :
  forall rest last,
    FetchToken (selectorLexerAt (SLASH :: rest) last) =
    Some (Token {| Symbol := exprSymbolSlash; Text := runes "/" |},
          selectorLexerAt rest (Some SLASH)).
Proof. reflexivity. Qed.

(** X15: a path is read back: over the text of a non-empty path whose
    segments have the shape [segmentFrom false] of identifier texts (see X6;
    in particular no digit follows an escaped rune and no segment ends with
    an escaped rune), written with the escape sequences and with slashes
    between them, the calls of [FetchToken] return the segments in order,
    escapes decoded, as identifier tokens with slash tokens between them,
    then the end token, and the input is exhausted. *)
Theorem selector_path_tokens :
  forall (segments : list gostring) (last : option rune),
    segments <> [] ->
    Forall (fun s => segmentFrom false s = true) segments ->
    fetchTokens (2 * length segments)
      (selectorLexerAt (pathText segments) last) =
    Some (pathTokens segments ++
            [Token {| Symbol := exprSymbolEnd; Text := [] |}],
          selectorLexerAt [] None).
Proof.
  induction segments as [|s more IH]; intros last Hne Hall; [congruence|].
  inv Hall. destruct more as [|s' more].
  - cbn [pathText pathTokens length Nat.mul Nat.add fetchTokens app].
    rewrite <- (app_nil_r (flat_map tildeEscape s)).
    rewrite (selector_FetchToken_segment s [] last H1 eq_refl).
    reflexivity.
  - replace (2 * length (s :: s' :: more))%nat
      with (S (S (2 * length (s' :: more)))) by (simpl; lia).
    change (pathText (s :: s' :: more))
      with (flat_map tildeEscape s ++ SLASH :: pathText (s' :: more)).
    change (pathTokens (s :: s' :: more))
      with (Token {| Symbol := exprSymbolIdentifier; Text := s |} ::
            Token {| Symbol := exprSymbolSlash; Text := runes "/" |} ::
            pathTokens (s' :: more)).
    cbn [fetchTokens].
    rewrite (selector_FetchToken_segment s (SLASH :: pathText (s' :: more))
               last H1 eq_refl).
    rewrite selector_FetchToken_slash.
    rewrite (IH (Some SLASH) ltac:(discriminate) H2). reflexivity.
Qed.

End SelectorPaths.

(** ** Instances of the further properties

    Each property above that has a hypothesis, applied to a concrete input;
    the scanner of package [selector] and the parser run over the tables
    that have nothing above Latin-1. *)

Lemma selector_FetchToken_skips_space_witness :
  selector.FetchToken (U := Latin1Only)
    (selectorLexerAt (runes "  a,b") None) =
  selector.FetchToken (U := Latin1Only)
    (selectorLexerAt (runes "a,b") (Some DIGIT0)).
Proof.
  apply (@selector_FetchToken_skips_space Latin1Only (runes "  ")
           (runes "a,b") None (Some DIGIT0)).
  repeat constructor.
Defined.

Lemma selector_FetchToken_rejects_witness :
  selector.FetchToken (U := Latin1Only)
    (selectorLexerAt (runes " (a") None) =
  Some (selector.Fault (selector.errUnexpectedCharacter LPAREN),
        selectorLexerAt (runes "a") (Some LPAREN)).
Proof.
  apply (@selector_FetchToken_rejects Latin1Only (runes " ") (runes "a")
           LPAREN None).
  - repeat constructor.
  - reflexivity.
Defined.

Lemma selector_identifier_text_witness :
  runes "my/attr" <> [] /\
  Forall (fun r => continuesIdentifier (U := Latin1Only) r || isEscaped r
                   = true) (runes "my/attr") /\
  continuesIdentifier (U := Latin1Only) (last (runes "my/attr") NUL) = true /\
  segmentFrom (U := Latin1Only) false (runes "my/attr") = true.
Proof.
  apply (@selector_identifier_text Latin1Only
           (selectorLexerAt (runes "my~1attr,x") None)
           (selectorLexerAt (runes ",x") None)
           {| selector.Symbol := selector.exprSymbolIdentifier;
              selector.Text := runes "my/attr" |}).
  - reflexivity.
  - reflexivity.
Defined.

Lemma selector_FetchToken_decodes_witness :
  selector.FetchToken (U := Latin1Only)
    (selectorLexerAt (runes "a~1b~0c,d") None) =
  Some (selector.Token {| selector.Symbol := selector.exprSymbolIdentifier;
                          selector.Text := runes "a/b~c" |},
        selectorLexerAt (runes ",d") None).
Proof.
  apply (@selector_FetchToken_decodes Latin1Only (runes "a/b~c") (runes ",d")
           None).
  - reflexivity.
  - reflexivity.
Defined.

Lemma selector_FetchToken_errors_witness :
  exists r,
    ((selector.errUnknownEscape LOWER_B = selector.errUnexpectedCharacter r /\
      rejectedInS0 (U := Latin1Only) r = true) \/
     (selector.errUnknownEscape LOWER_B = selector.errUnknownEscape r /\
      r <> DIGIT0 /\ r <> DIGIT1 /\ r <> LOWER_A)) /\
    ((exists consumed,
        unread (selectorLexerAt (runes "my~battr") None) =
        consumed ++ r :: unread (selectorLexerAt (runes "attr") (Some LOWER_B)))
     \/ (r = NUL /\
         unread (selectorLexerAt (runes "attr") (Some LOWER_B)) = [])).
Proof.
  apply (@selector_FetchToken_errors Latin1Only
           (selectorLexerAt (runes "my~battr") None)
           (selectorLexerAt (runes "attr") (Some LOWER_B))
           (selector.errUnknownEscape LOWER_B)).
  reflexivity.
Defined.

Lemma selector_path_tokens_witness :
  fetchTokens (U := Latin1Only) 4 (selectorLexerAt (runes "a~1b/c") None) =
  Some ([selector.Token {| selector.Symbol := selector.exprSymbolIdentifier;
                           selector.Text := runes "a/b" |};
         selector.Token {| selector.Symbol := selector.exprSymbolSlash;
                           selector.Text := runes "/" |};
         selector.Token {| selector.Symbol := selector.exprSymbolIdentifier;
                           selector.Text := runes "c" |};
         selector.Token {| selector.Symbol := selector.exprSymbolEnd;
                           selector.Text := [] |}],
        selectorLexerAt [] None).
Proof.
  apply (@selector_path_tokens Latin1Only [runes "a/b"; runes "c"] None).
  - discriminate.
  - repeat constructor.
Defined.

Lemma Parse_never_returns_Lte_witness :
  Forall (fun t => filter.Term_Operator t <> filter.Lte)
    [{| filter.Term_Operator := filter.Gt;
        filter.Term_Path := [runes "a"];
        filter.Term_Values := [runes "x"] |}].
Proof.
  apply (@Parse_never_returns_Lte _ (filter_lexer.scanner (U := Latin1Only))
           Latin1Only 12%nat (runes "(lte,a,'x')")
           {| filter.Terms :=
                [{| filter.Term_Operator := filter.Gt;
                    filter.Term_Path := [runes "a"];
                    filter.Term_Values := [runes "x"] |}] |}).
  reflexivity.
Defined.

Lemma Parse_keeps_token_texts_witness :
  Forall
    (fun t =>
       Forall (fun s =>
                 fetchedToken (scanner := filter_lexer.scanner (U := Latin1Only))
                   {| filter.Symbol := filter.exprSymbolIdentifier;
                      filter.Text := s |}) (filter.Term_Path t) /\
       Forall (fun v =>
                 fetchedToken (scanner := filter_lexer.scanner (U := Latin1Only))
                   {| filter.Symbol := filter.exprSymbolString;
                      filter.Text := v |}) (filter.Term_Values t))
    [{| filter.Term_Operator := filter.Eq;
        filter.Term_Path := [runes "a"; runes "b"];
        filter.Term_Values := [runes "it's"] |}].
Proof.
  apply (@Parse_keeps_token_texts _ (filter_lexer.scanner (U := Latin1Only))
           Latin1Only 20%nat (runes "(eq,a/b,'it''s')")
           {| filter.Terms :=
                [{| filter.Term_Operator := filter.Eq;
                    filter.Term_Path := [runes "a"; runes "b"];
                    filter.Term_Values := [runes "it's"] |}] |}).
  reflexivity.
Defined.

Lemma parseExpr_stops_at_End_witness :
  exists tok l,
    Some {| filter.Symbol := filter.exprSymbolEnd; filter.Text := [] |} =
      Some tok /\
    filter.Symbol tok = filter.exprSymbolEnd /\
    filter.FetchToken (Scanner := filter_lexer.scanner (U := Latin1Only))
      (filter.SetMode (Scanner := filter_lexer.scanner (U := Latin1Only))
         filter.exprDefaultMode l) =
    Some (filter.Token tok, lexerAt filter.exprDefaultMode [] None).
Proof.
  apply (@parseExpr_stops_at_End _ (filter_lexer.scanner (U := Latin1Only))
           Latin1Only 12%nat 12%nat []
           {| filter.lexer :=
                lexerAt filter.exprDefaultMode (runes "(eq,a,'v')") None;
              filter.token := None |}
           {| filter.lexer := lexerAt filter.exprDefaultMode [] None;
              filter.token :=
                Some {| filter.Symbol := filter.exprSymbolEnd;
                        filter.Text := [] |} |}
           {| filter.Terms :=
                [{| filter.Term_Operator := filter.Eq;
                    filter.Term_Path := [runes "a"];
                    filter.Term_Values := [runes "v"] |}] |}).
  reflexivity.
Defined.

Lemma Parse_error_origin_witness :
  filter.newLexerOver (Scanner := filter_lexer.scanner (U := Latin1Only))
    (runes "(xx,a,'v')") = inr (filter.errUnknownOperator (runes "xx")) \/
  scannerFault (scanner := filter_lexer.scanner (U := Latin1Only))
    (filter.errUnknownOperator (runes "xx")) \/
  parserMessage (U := Latin1Only) (filter.errUnknownOperator (runes "xx")).
Proof.
  apply (@Parse_error_origin _ (filter_lexer.scanner (U := Latin1Only))
           Latin1Only 12%nat (runes "(xx,a,'v')")
           (filter.errUnknownOperator (runes "xx"))).
  reflexivity.
Defined.

Lemma Parse_expects_left_parenthesis_witness :
  ParseLatin1 1 (runes "eq,a") =
  Some (None, Some (filter.errUnexpectedToken (runes "eq")
                      (runes "left parenthesis"))).
Proof.
  apply (@Parse_expects_left_parenthesis _
           (filter_lexer.scanner (U := Latin1Only)) Latin1Only 0%nat
           (runes "eq,a")
           (lexerAt filter.exprDefaultMode (runes "eq,a") None)
           (lexerAt filter.exprDefaultMode (runes ",a") None)
           {| filter.Symbol := filter.exprSymbolIdentifier;
              filter.Text := runes "eq" |}).
  - reflexivity.
  - reflexivity.
  - discriminate.
Defined.

Lemma Parse_expects_term_after_semicolon_witness :
  ParseLatin1 12 (runes "(eq,a,'v');") =
  Some (None, Some (filter.errUnexpectedToken []
                      (runes "left parenthesis"))).
Proof.
  apply (@Parse_expects_term_after_semicolon _
           (filter_lexer.scanner (U := Latin1Only)) Latin1Only 10%nat
           (runes "(eq,a,'v');")
           (lexerAt filter.exprDefaultMode (runes "(eq,a,'v');") None)
           (lexerAt filter.exprDefaultMode [] (Some SEMICOLON))
           (lexerAt filter.exprDefaultMode [] None)
           {| filter.Term_Operator := filter.Eq;
              filter.Term_Path := [runes "a"];
              filter.Term_Values := [runes "v"] |}
           {| filter.lexer :=
                lexerAt filter.exprDefaultMode (runes ";") (Some RPAREN);
              filter.token := None |}
           {| filter.Symbol := filter.exprSymbolSemicolon;
              filter.Text := runes ";" |}
           {| filter.Symbol := filter.exprSymbolEnd; filter.Text := [] |}).
  - reflexivity.
  - reflexivity.
  - reflexivity.
  - reflexivity.
  - reflexivity.
  - discriminate.
Defined.

Lemma parseOperator_accepts_the_labels_witness :
  (exists op,
     filter.parseOperator (U := Latin1Only)
       (scanner := filter_lexer.scanner (U := Latin1Only))
       {| filter.lexer := lexerAt filter.exprDefaultMode (runes ",a") None;
          filter.token :=
            Some {| filter.Symbol := filter.exprSymbolIdentifier;
                    filter.Text := runes "NEq" |} |} =
     Some (filter.Return op
             {| filter.lexer := lexerAt filter.exprDefaultMode (runes ",a") None;
                filter.token := None |})) /\
  filter.parseOperator (U := Latin1Only)
    (scanner := filter_lexer.scanner (U := Latin1Only))
    {| filter.lexer := lexerAt filter.exprDefaultMode (runes ",a") None;
       filter.token :=
         Some {| filter.Symbol := filter.exprSymbolIdentifier;
                 filter.Text := runes "like" |} |} =
  Some (filter.Panic (filter.errUnknownOperator (runes "like"))).
Proof.
  split.
  - apply (proj1 (@parseOperator_accepts_the_labels _
                    (filter_lexer.scanner (U := Latin1Only)) Latin1Only
                    (runes "NEq")
                    (lexerAt filter.exprDefaultMode (runes ",a") None))).
    simpl. do 8 right. left. reflexivity.
  - apply (proj2 (@parseOperator_accepts_the_labels _
                    (filter_lexer.scanner (U := Latin1Only)) Latin1Only
                    (runes "like")
                    (lexerAt filter.exprDefaultMode (runes ",a") None))).
    simpl. intros H.
    repeat (destruct H as [H|H]; [discriminate H|]). exact H.
Defined.
